(** * RouteMe: a shallow embedding of the event bus, the history store, the geometry
    helpers, the location context and the routing fetch, with the
    properties stated in the specification. *)

From Stdlib Require Import ZArith QArith Qround Qpower Lqa String Ascii DecimalString Bool Lia List.
Import ListNotations.

(* ------------------------------------------------------------------ *)
(** ** JavaScript truthiness of the optional fields used by the code  *)
(* ------------------------------------------------------------------ *)

Module Js.

(** An optional string field ([undefined] is [None]); the empty string is falsy. *)
Definition truthy_str (s : option string) : bool :=
  match s with
  | Some v => negb (String.eqb v EmptyString)
  | None => false
  end.

(** An optional boolean field ([undefined] is [None]). *)
Definition truthy_bool (b : option bool) : bool :=
  match b with
  | Some true => true
  | _ => false
  end.

(** [===] on two optional strings. *)
Definition str_eqb (a b : option string) : bool :=
  match a, b with
  | Some x, Some y => String.eqb x y
  | None, None => true
  | _, _ => false
  end.

End Js.

(* ------------------------------------------------------------------ *)
(** ** Search-history store (src/src/utils/eventBus.js, storage part)  *)
(* ------------------------------------------------------------------ *)

Module History.

(** A stored entry.  Coordinates are numbers compared with [===]; they
    are kept as exact integers (for instance micro-degrees), which is
    all the code does with them.  [favorite] and [timestamp] may be
    absent in an entry handed to [saveSearchEntry]. *)
Record HistoryEntry := mkEntry {
  placeId : option string;
  name : string;
  address : string;
  latitude : Z;
  longitude : Z;
  favorite : option bool;
  timestamp : option Z
}.

Definition STORAGE_CAP : nat := 50.

(** The predicate passed to [list.find] and (negated) to [list.filter]:
    [if (entry.placeId && e.placeId) return e.placeId === entry.placeId;
     return e.latitude === entry.latitude && e.longitude === entry.longitude;] *)
Definition sameKey (entry e : HistoryEntry) : bool :=
  if Js.truthy_str (placeId entry) && Js.truthy_str (placeId e)
  then Js.str_eqb (placeId e) (placeId entry)
  else Z.eqb (latitude e) (latitude entry) && Z.eqb (longitude e) (longitude entry).

(** [!toStore[i].favorite] is [negb (isFavorite toStore[i])]. *)
Definition isFavorite (e : HistoryEntry) : bool := Js.truthy_bool (favorite e).

(** [const existing = list.find(...)] *)
Definition existing (prev : list HistoryEntry) (entry : HistoryEntry)
  : option HistoryEntry :=
  find (sameKey entry) prev.

(** [const filtered = list.filter(...)] *)
Definition filtered (prev : list HistoryEntry) (entry : HistoryEntry)
  : list HistoryEntry :=
  filter (fun e => negb (sameKey entry e)) prev.

(** [const newEntry = { ...entry, timestamp: Date.now(),
       favorite: existing?.favorite || entry.favorite || false }] *)
Definition newEntry (now : Z) (prev : list HistoryEntry) (entry : HistoryEntry)
  : HistoryEntry :=
  let fav :=
    match existing prev entry with
    | Some ex => isFavorite ex
    | None => false
    end || Js.truthy_bool (favorite entry) in
  {| placeId := placeId entry;
     name := name entry;
     address := address entry;
     latitude := latitude entry;
     longitude := longitude entry;
     favorite := Some fav;
     timestamp := Some now |}.

(** [filtered.unshift(newEntry)] *)
Definition upserted (now : Z) (prev : list HistoryEntry) (entry : HistoryEntry)
  : list HistoryEntry :=
  newEntry now prev entry :: filtered prev entry.

(** [toStore.splice(i, 1)] *)
Definition splice1 {A} (i : nat) (l : list A) : list A :=
  firstn i l ++ skipn (S i) l.

(** The eviction loop
    [for (let i = toStore.length - 1; i >= 0 && toStore.length > STORAGE_CAP; i--)
       if (!toStore[i].favorite) toStore.splice(i, 1);]
    The argument [n] is [i + 1]: [n = 0] is the exit at [i = -1]. *)
Fixpoint evictLoop (n : nat) (toStore : list HistoryEntry) : list HistoryEntry :=
  match n with
  | O => toStore
  | S i =>
      if Nat.ltb STORAGE_CAP (length toStore) then
        match nth_error toStore i with
        | Some e =>
            if negb (isFavorite e) then evictLoop i (splice1 i toStore)
            else evictLoop i toStore
        | None => evictLoop i toStore (* unreachable: i < length toStore *)
        end
      else toStore
  end.

(** [let toStore = filtered.slice(); if (toStore.length > STORAGE_CAP) { loop }] *)
Definition evict (toStore : list HistoryEntry) : list HistoryEntry :=
  if Nat.ltb STORAGE_CAP (length toStore)
  then evictLoop (length toStore) toStore
  else toStore.

(** [saveSearchEntry(entry)]: the list written back to storage, from the
    list read from it ([[]] when the key is absent or its JSON does not
    parse) and the value of [Date.now()]. *)
Definition saveSearchEntry (now : Z) (prev : list HistoryEntry) (entry : HistoryEntry)
  : list HistoryEntry :=
  evict (upserted now prev entry).

End History.

(* ------------------------------------------------------------------ *)
(** ** JavaScript numbers used as 32-bit integers and number printing *)
(* ------------------------------------------------------------------ *)

Module Int32.

Local Open Scope Z_scope.

(** [ToInt32]: wrap an integer into the signed 32-bit range. *)
Definition toInt32 (z : Z) : Z :=
  let m := z mod 2 ^ 32 in
  if m >=? 2 ^ 31 then m - 2 ^ 32 else m.

(** [a & b], [a | b], [a << s], [a >> s], [~a] on integral numbers. *)
Definition band (a b : Z) : Z := Z.land (toInt32 a) (toInt32 b).
Definition bor (a b : Z) : Z := Z.lor (toInt32 a) (toInt32 b).
Definition shl (a s : Z) : Z := toInt32 (Z.shiftl (toInt32 a) (Z.land s 31)).
Definition sar (a s : Z) : Z := Z.shiftr (toInt32 a) (Z.land s 31).
Definition bnot (a : Z) : Z := Z.lnot (toInt32 a).

End Int32.

(** [String(n)] for an integral number [n]. *)
Definition showZ (z : Z) : string := NilZero.string_of_int (Z.to_int z).

(** Number-to-string for the rational numbers of this model: integers
    print as JavaScript prints them; other values print as their reduced
    fraction.  Like JavaScript's printer it sends equal numbers to equal
    strings and distinct numbers to distinct strings, which is all the
    request key needs. *)
Definition numToString (q : Q) : string :=
  let r := Qred q in
  if Pos.eqb (Qden r) 1 then showZ (Qnum r)
  else (showZ (Qnum r) ++ "/" ++ showZ (Zpos (Qden r)))%string.

(* ------------------------------------------------------------------ *)
(** ** Geometry helpers (src/src/utils/mapHelpers.js)                  *)
(* ------------------------------------------------------------------ *)

Module Geo.

Local Open Scope Q_scope.

Record Coordinate := mkCoord { latitude : Q; longitude : Q }.

(** [Math.round] (ties towards +infinity). *)
Definition jsRound (q : Q) : Z := Qfloor (q + (1 # 2)).

(** [a % b]: the remainder of the truncated division. *)
Definition jsMod (a b : Q) : Q :=
  let k := a / b in
  let t := if Qle_bool 0 k then Qfloor k else (- Qfloor (- k))%Z in
  a - b * inject_Z t.

(** Numbers are the doubles they hold, as rationals.  [round64 x] is the
    double nearest to [x] (ties to even), the result of an arithmetic
    operation whose exact value is [x]; overflow to [Infinity] is not
    modelled (the modelled operations stay far below [2^1024]).  For
    [q = n/d > 0] with [e0 = floor(log2 n) - floor(log2 d)],
    [2^(e0-1) < q < 2^(e0+1)], so [q]'s binade is [e0] or [e0 - 1]; below
    [2^-1022] the spacing stays [2^-1074] (subnormals). *)
Definition roundHalfEven (q : Q) : Z :=
  let f := Qfloor q in
  match Qcompare (q - inject_Z f) (1 # 2) with
  | Lt => f
  | Gt => (f + 1)%Z
  | Eq => if Z.even f then f else (f + 1)%Z
  end.

Definition binadeExp (q : Q) : Z :=
  let e0 := (Z.log2 (Qnum q) - Z.log2 (Zpos (Qden q)))%Z in
  if Qle_bool (2 ^ e0) q then e0 else (e0 - 1)%Z.

Definition roundPos (q : Q) : Q :=
  let ulp := 2 ^ (Z.max (binadeExp q) (-1022) - 52) in
  inject_Z (roundHalfEven (q / ulp)) * ulp.

(** The sign is handled apart, so rounding is odd; the result is in
    lowest terms, so equal doubles are equal rationals. *)
Definition round64 (x : Q) : Q :=
  let r := Qred x in
  Qred (match Qnum r with
        | Z0 => 0
        | Zpos n => roundPos (Zpos n # Qden r)
        | Zneg n => - roundPos (Zpos n # Qden r)
        end).

(** [formatDuration(duration)]: [duration < 60], [%] and [Math.round]
    are exact on doubles; [duration / 60] is rounded. *)
Definition formatDuration (duration : Q) : string :=
  if negb (Qle_bool 60 duration) then (showZ (jsRound duration) ++ " min")%string
  else
    let hours := Qfloor (round64 (duration / 60)) in
    let minutes := jsRound (jsMod duration 60) in
    (showZ hours ++ "h " ++ showZ minutes ++ "m")%string.

(** [a < b] on numbers. *)
Definition qltb (a b : Q) : bool := negb (Qle_bool b a).

(** [hasDeviatedFromRoute].  The distance function [calculateDistance]
    is a parameter: the loop only compares its results, so they are
    taken as ordered numbers (rationals). *)
Section Deviation.

Variable Coord : Type.
Variable calculateDistance : Coord -> Coord -> Q.

(** [for (const coord of routeCoordinates) { ... if (distance < minDistance)
    minDistance = distance; }], with [None] standing for [Infinity]. *)
Fixpoint minDistanceLoop (current : Coord) (coords : list Coord)
  (minDistance : option Q) : option Q :=
  match coords with
  | [] => minDistance
  | coord :: rest =>
      let distance := calculateDistance current coord in
      let minDistance' :=
        match minDistance with
        | None => Some distance
        | Some m => if qltb distance m then Some distance else Some m
        end in
      minDistanceLoop current rest minDistance'
  end.

(** The default parameter [threshold = 0.05]. *)
Definition defaultThreshold : Q := 5 # 100.

(** [currentLocation] and [routeCoordinates] may be [null]/[undefined]
    ([None]); [threshold] may be omitted ([None]). *)
Definition hasDeviatedFromRoute (currentLocation : option Coord)
  (routeCoordinates : option (list Coord)) (threshold : option Q) : bool :=
  let threshold := match threshold with Some t => t | None => defaultThreshold end in
  match currentLocation, routeCoordinates with
  | Some current, Some ((_ :: _) as route) =>
      match minDistanceLoop current route None with
      | Some minDistance => qltb threshold minDistance
      | None => true (* Infinity > threshold; unreachable on a non-empty route *)
      end
  | _, _ => false
  end.

End Deviation.

(** [decodePolyline(encoded)].  The string is read as its list of
    UTF-16 code units; [charCodeAt] past the end yields [NaN], for which
    [NaN - 63 & 0x1f] is [0] and [NaN >= 0x20] is false. *)

Local Open Scope Z_scope.

(** One [do { b = encoded.charCodeAt(index++) - 63;
    result |= (b & 0x1f) << shift; shift += 5; } while (b >= 0x20);]
    returning [result] and the characters after [index]. *)
Fixpoint readChunk (s : list Z) (shift result : Z) : Z * list Z :=
  match s with
  | [] => (Int32.bor result (Int32.shl 0 shift), [])
  | c :: rest =>
      let b := c - 63 in
      let result' := Int32.bor result (Int32.shl (Int32.band b 31) shift) in
      if b >=? 32 then readChunk rest (shift + 5) result' else (result', rest)
  end.

(** [(result & 1) !== 0 ? ~(result >> 1) : result >> 1] *)
Definition unzigzag (result : Z) : Z :=
  if negb (Int32.band result 1 =? 0) then Int32.bnot (Int32.sar result 1)
  else Int32.sar result 1.

(** [while (index < len) { ... }] over the remaining characters; the
    running sums [lat] and [lng] are integral and small, so the
    floating-point additions are exact.  Each round consumes at least one
    character, so [length s] rounds of fuel are enough. *)
Fixpoint decodeLoop (fuel : nat) (s : list Z) (lat lng : Z) : list (Z * Z) :=
  match fuel with
  | O => []
  | S fuel' =>
      match s with
      | [] => []
      | _ :: _ =>
          let (r1, s1) := readChunk s 0 0 in
          let lat' := lat + unzigzag r1 in
          let (r2, s2) := readChunk s1 0 0 in
          let lng' := lng + unzigzag r2 in
          (lat', lng') :: decodeLoop fuel' s2 lat' lng'
      end
  end.

Definition codeUnits (encoded : string) : list Z :=
  map (fun a => Z.of_nat (nat_of_ascii a)) (list_ascii_of_string encoded).

(** [poly.push({ latitude: lat / 1e5, longitude: lng / 1e5 })]: the
    exact quotients; the code's division rounds them to the nearest
    double, the same double as the decimal literal of the quotient. *)
Definition decodePolyline (encoded : string) : list Coordinate :=
  if String.eqb encoded EmptyString then []
  else
    let s := codeUnits encoded in
    map (fun '(lat, lng) =>
           {| latitude := inject_Z lat / inject_Z 100000;
              longitude := inject_Z lng / inject_Z 100000 |})
        (decodeLoop (List.length s) s 0 0).

End Geo.

(* ------------------------------------------------------------------ *)
(** ** A state-and-exception monad for the effectful code              *)
(* ------------------------------------------------------------------ *)

Module Exc.

(** The exceptions the modelled code can raise. *)
Inductive JsError :=
| TypeError (msg : string)
| SyntaxError (msg : string)
| NetworkError (msg : string).

Inductive Result (A : Type) :=
| Ok (a : A)
| Throw (e : JsError).
Arguments Ok {A} a.
Arguments Throw {A} e.

(** A computation over state [S]: like JavaScript, a throw keeps the
    updates made before it. *)
Definition M (S A : Type) : Type := S -> Result A * S.

Definition ret {S A} (a : A) : M S A := fun s => (Ok a, s).

Definition bind {S A B} (m : M S A) (k : A -> M S B) : M S B :=
  fun s =>
    match m s with
    | (Ok a, s') => k a s'
    | (Throw e, s') => (Throw e, s')
    end.

Definition throw {S A} (e : JsError) : M S A := fun s => (Throw e, s).
Definition get {S} : M S S := fun s => (Ok s, s).
Definition modify {S} (f : S -> S) : M S unit := fun s => (Ok tt, f s).

(** [try { m } catch (e) { /* logged */ } finally { f }] *)
Definition tryCatchFinally {S} (m : M S unit) (fin : S -> S) : M S unit :=
  fun s => let (_, s') := m s in (Ok tt, fin s').

Declare Scope exc_scope.
Notation "x <- m ;; k" := (bind m (fun x => k))
  (at level 61, m at next level, right associativity) : exc_scope.
Notation "m ;; k" := (bind m (fun _ => k))
  (at level 61, right associativity) : exc_scope.

End Exc.

(* ------------------------------------------------------------------ *)
(** ** Location context (src/src/context/LocationContext.js)           *)
(* ------------------------------------------------------------------ *)

Module Context.

Import Exc.
Local Open Scope exc_scope.

(** A destination object: its own properties, later ones listed first. *)
Definition Destination := list (string * string).

(** [obj.name]: a missing property reads as [undefined]. *)
Definition prop (d : Destination) (k : string) : option string :=
  option_map snd (find (fun kv => String.eqb (fst kv) k) d).

(** [{ ...prev, ...updates }] *)
Definition merge (prev updates : Destination) : Destination :=
  updates ++ filter (fun kv => negb (existsb (fun u => String.eqb (fst u) (fst kv)) updates)) prev.

(** The argument of [updateDestination]. *)
Inductive DestArg :=
| ArgNull
| ArgUndefined
| ArgObject (d : Destination).

Record Step := mkStep { instruction : string; stepDistance : string; stepDuration : string }.
Record RouteInfo := mkRouteInfo { distance : Q; duration : Q; steps : list Step }.

Record LocState := mkLocState {
  currentLocation : option Geo.Coordinate;
  destination : option Destination;
  routeInfo : option RouteInfo;
  routeCoordinates : list Geo.Coordinate;
  isLoadingRoute : bool;
  isJourneyActive : bool
}.

(** The [useState] initial values. *)
Definition initialState : LocState :=
  mkLocState None None None [] false false.

(** The [useState] setters. *)
Definition setCurrentLocation v s :=
  mkLocState v (destination s) (routeInfo s) (routeCoordinates s) (isLoadingRoute s) (isJourneyActive s).
Definition setDestination v s :=
  mkLocState (currentLocation s) v (routeInfo s) (routeCoordinates s) (isLoadingRoute s) (isJourneyActive s).
Definition setRouteInfo v s :=
  mkLocState (currentLocation s) (destination s) v (routeCoordinates s) (isLoadingRoute s) (isJourneyActive s).
Definition setRouteCoordinates v s :=
  mkLocState (currentLocation s) (destination s) (routeInfo s) v (isLoadingRoute s) (isJourneyActive s).
Definition setIsLoadingRoute v s :=
  mkLocState (currentLocation s) (destination s) (routeInfo s) (routeCoordinates s) v (isJourneyActive s).
Definition setIsJourneyActive v s :=
  mkLocState (currentLocation s) (destination s) (routeInfo s) (routeCoordinates s) (isLoadingRoute s) v.

Definition updateCurrentLocation (location : option Geo.Coordinate) : M LocState unit :=
  modify (setCurrentLocation location).

(** [dest.name] inside [console.log]: property access on [null] or
    [undefined] throws. *)
Definition readName (dest : DestArg) : M LocState (option string) :=
  match dest with
  | ArgNull => throw (TypeError "Cannot read properties of null (reading 'name')")
  | ArgUndefined => throw (TypeError "Cannot read properties of undefined (reading 'name')")
  | ArgObject d => ret (prop d "name")
  end.

Definition destValue (dest : DestArg) : option Destination :=
  match dest with
  | ArgObject d => Some d
  | _ => None
  end.

Definition updateDestination (dest : DestArg) : M LocState unit :=
  _ <- readName dest ;;
  modify (setDestination (destValue dest)) ;;
  modify (setRouteCoordinates []) ;;
  modify (setRouteInfo None) ;;
  modify (setIsLoadingRoute true).

Definition setDestinationMeta (updates : Destination) : M LocState unit :=
  modify (fun s =>
    setDestination
      (Some match destination s with
            | None => merge [] updates
            | Some prev => merge prev updates
            end) s).

Definition clearDestination : M LocState unit :=
  modify (setDestination None) ;;
  modify (setRouteCoordinates []) ;;
  modify (setRouteInfo None) ;;
  modify (setIsJourneyActive false).

Definition startJourney : M LocState unit := modify (setIsJourneyActive true).
Definition stopJourney : M LocState unit := modify (setIsJourneyActive false).

Definition updateRoute (info : RouteInfo) (coordinates : list Geo.Coordinate)
  : M LocState unit :=
  modify (setRouteInfo (Some info)) ;;
  modify (setRouteCoordinates coordinates).

(** The operations of the context value. *)
Inductive Op :=
| OpUpdateCurrentLocation (location : option Geo.Coordinate)
| OpUpdateDestination (dest : DestArg)
| OpClearDestination
| OpUpdateRoute (info : RouteInfo) (coordinates : list Geo.Coordinate)
| OpSetIsLoadingRoute (b : bool)
| OpStartJourney
| OpStopJourney
| OpSetDestinationMeta (updates : Destination).

Definition runOp (op : Op) : M LocState unit :=
  match op with
  | OpUpdateCurrentLocation l => updateCurrentLocation l
  | OpUpdateDestination d => updateDestination d
  | OpClearDestination => clearDestination
  | OpUpdateRoute i c => updateRoute i c
  | OpSetIsLoadingRoute b => modify (setIsLoadingRoute b)
  | OpStartJourney => startJourney
  | OpStopJourney => stopJourney
  | OpSetDestinationMeta u => setDestinationMeta u
  end.

End Context.

(* ------------------------------------------------------------------ *)
(** ** Routing fetch (src/src/components/RouteDirections.js)           *)
(* ------------------------------------------------------------------ *)

Module Routing.

Import Exc.
Local Open Scope exc_scope.

(** The JSON of a directions response, as far as the code reads it. *)
Record StepJson := mkStepJson {
  html_instructions : string;
  step_distance_text : string;
  step_duration_text : string
}.

Record LegJson := mkLegJson {
  leg_distance_text : string;
  leg_distance_value : Q;
  leg_duration_text : string;
  leg_duration_value : Q;
  leg_steps : list StepJson
}.

Record RouteJson := mkRouteJson {
  overview_polyline_points : string;
  legs : list LegJson
}.

Record DirectionsData := mkDirectionsData {
  status : string;
  routes : list RouteJson
}.

(** How [await fetch(url)] and [await response.json()] settle. *)
Inductive FetchOutcome :=
| FetchRejected          (* network error *)
| JsonRejected           (* body is not JSON *)
| Responded (data : DirectionsData).

(** The component's refs next to the context state, and the URLs
    handed to [fetch], oldest first. *)
Record World := mkWorld {
  ctx : Context.LocState;
  isFetchingRef : bool;
  lastFetchKeyRef : option string;
  fetchCalls : list string
}.

Definition liftCtx {A} (m : M Context.LocState A) : M World A :=
  fun w =>
    let (r, c) := m (ctx w) in
    (r, mkWorld c (isFetchingRef w) (lastFetchKeyRef w) (fetchCalls w)).

Definition setFetching b w :=
  mkWorld (ctx w) b (lastFetchKeyRef w) (fetchCalls w).
Definition setLastFetchKey k w :=
  mkWorld (ctx w) (isFetchingRef w) k (fetchCalls w).
Definition recordFetch url w :=
  mkWorld (ctx w) (isFetchingRef w) (lastFetchKeyRef w) (fetchCalls w ++ [url]).

Definition coordString (c : Geo.Coordinate) : string :=
  (numToString (Geo.latitude c) ++ "," ++ numToString (Geo.longitude c))%string.

(** [`${origin.latitude},${origin.longitude}-${destination.latitude},${destination.longitude}`] *)
Definition fetchKey (origin destination : Geo.Coordinate) : string :=
  (coordString origin ++ "-" ++ coordString destination)%string.

Definition requestUrl (origin destination : Geo.Coordinate) (apiKey : string) : string :=
  ("https://maps.googleapis.com/maps/api/directions/json?origin=" ++ coordString origin
   ++ "&destination=" ++ coordString destination ++ "&key=" ++ apiKey
   ++ "&mode=driving")%string.

(** [html_instructions.replace(/<[^>]*>/g, '')]: [pending] holds the
    characters read since an unclosed [<], which stay when no [>]
    follows. *)
Fixpoint stripTagsLoop (s : list ascii) (pending : option (list ascii)) : list ascii :=
  match s with
  | [] => match pending with Some buf => rev buf | None => [] end
  | c :: rest =>
      match pending with
      | None =>
          if Ascii.eqb c "<"%char then stripTagsLoop rest (Some [c])
          else c :: stripTagsLoop rest None
      | Some buf =>
          if Ascii.eqb c ">"%char then stripTagsLoop rest None
          else stripTagsLoop rest (Some (c :: buf))
      end
  end.

Definition stripTags (s : string) : string :=
  string_of_list_ascii (stripTagsLoop (list_ascii_of_string s) None).

(** The synchronous part of [fetchRoute], up to [await fetch(url)]. *)
Definition fetchRouteStart (origin destination : Geo.Coordinate) (apiKey : string)
  : M World unit :=
  modify (setFetching true) ;;
  modify (setLastFetchKey (Some (fetchKey origin destination))) ;;
  liftCtx (modify (Context.setIsLoadingRoute true)) ;;
  modify (recordFetch (requestUrl origin destination apiKey)).

(** The body of the [try] once the fetch has settled.  [onRouteReady]
    does not touch the context, and anything it throws is caught by the
    same [catch]. *)
Definition fetchRouteBody (outcome : FetchOutcome) : M World unit :=
  match outcome with
  | FetchRejected => throw (NetworkError "Network request failed")
  | JsonRejected => throw (SyntaxError "JSON Parse error")
  | Responded data =>
      if String.eqb (status data) "OK" && Nat.ltb 0 (List.length (routes data)) then
        match routes data with
        | route :: _ =>
            match legs route with
            | leg :: _ =>
                let points := Geo.decodePolyline (overview_polyline_points route) in
                let info :=
                  {| Context.distance := leg_distance_value leg / 1000;
                     Context.duration := leg_duration_value leg / 60;
                     Context.steps :=
                       map (fun st =>
                              {| Context.instruction := stripTags (html_instructions st);
                                 Context.stepDistance := step_distance_text st;
                                 Context.stepDuration := step_duration_text st |})
                           (leg_steps leg) |} in
                liftCtx (Context.updateRoute info points)
            | [] => throw (TypeError "Cannot read properties of undefined (reading 'distance')")
            end
        | [] => ret tt (* unreachable: routes.length > 0 *)
        end
      else ret tt (* console.error('API error') *)
  end.

(** [finally { setIsLoadingRoute(false); isFetchingRef.current = false; }] *)
Definition fetchRouteFinally (w : World) : World :=
  setFetching false
    (mkWorld (Context.setIsLoadingRoute false (ctx w))
             (isFetchingRef w) (lastFetchKeyRef w) (fetchCalls w)).

(** The rest of [fetchRoute] once the fetch has settled. *)
Definition fetchRouteResume (outcome : FetchOutcome) : M World unit :=
  tryCatchFinally (fetchRouteBody outcome) fetchRouteFinally.

(** The body of the fetching [useEffect]. *)
Definition routeEffect (origin destination : option Geo.Coordinate) (apiKey : string)
  : M World unit :=
  match origin, destination with
  | Some o, Some d =>
      if String.eqb apiKey EmptyString then ret tt
      else
        w <- get ;;
        if isFetchingRef w then ret tt
        else if match lastFetchKeyRef w with
                | Some k => String.eqb k (fetchKey o d)
                | None => false
                end
        then ret tt
        else fetchRouteStart o d apiKey
  | _, _ => ret tt
  end.

(** What happens over time: the effect runs, or the pending fetch settles. *)
Inductive Event :=
| RunEffect (origin destination : option Geo.Coordinate) (apiKey : string)
| Settle (outcome : FetchOutcome).

Definition runEvent (ev : Event) (w : World) : World :=
  match ev with
  | RunEffect o d k => snd (routeEffect o d k w)
  | Settle out => snd (fetchRouteResume out w)
  end.

Fixpoint runEvents (evs : list Event) (w : World) : World :=
  match evs with
  | [] => w
  | ev :: rest => runEvents rest (runEvent ev w)
  end.

(** A fresh component over a given context state. *)
Definition freshWorld (c : Context.LocState) : World := mkWorld c false None [].

End Routing.

(* ------------------------------------------------------------------ *)
(** ** Event bus (src/src/utils/eventBus.js, first part)               *)
(* ------------------------------------------------------------------ *)

Module Bus.

Import Exc.

(** A listener function.  The code compares listeners by identity
    ([f !== cb]), so a listener is named here by its identity. *)
Definition Callback := nat.

(** The own properties of the module-level [listeners] object ([{}]):
    event name to its array. *)
Definition Listeners := list (string * list Callback).

(** The properties every object inherits from [Object.prototype]. *)
Definition objectPrototypeNames : list string :=
  ["constructor"; "__defineGetter__"; "__defineSetter__"; "hasOwnProperty";
   "__lookupGetter__"; "__lookupSetter__"; "isPrototypeOf";
   "propertyIsEnumerable"; "toString"; "valueOf"; "__proto__";
   "toLocaleString"]%string.

(** What [listeners[event]] reads: an own array, nothing ([undefined]),
    or an inherited property of [Object.prototype] (a function, or the
    prototype object itself for [__proto__]), which is truthy and has no
    [push], [filter] or [forEach]. *)
Inductive Slot :=
| Absent
| Arr (a : list Callback)
| NonArray.

Definition get (ls : Listeners) (event : string) : Slot :=
  match find (fun kv => String.eqb (fst kv) event) ls with
  | Some (_, a) => Arr a
  | None =>
      if existsb (String.eqb event) objectPrototypeNames then NonArray else Absent
  end.

(** [listeners[event] = v] *)
Definition set (ls : Listeners) (event : string) (v : list Callback) : Listeners :=
  (event, v) :: filter (fun kv => negb (String.eqb (fst kv) event)) ls.

(** [(f) => f !== cb] *)
Definition notCb (cb f : Callback) : bool := negb (Nat.eqb f cb).

(** [on(event, cb)]:
    [if (!listeners[event]) listeners[event] = []; listeners[event].push(cb);] *)
Definition on (event : string) (cb : Callback) (ls : Listeners) : Result Listeners :=
  let ls := match get ls event with
            | Absent => set ls event []
            | _ => ls
            end in
  match get ls event with
  | Arr a => Ok (set ls event (a ++ [cb]))
  | _ => Throw (TypeError "listeners[event].push is not a function")
  end.

(** The function returned by [on(event, cb)]:
    [listeners[event] = (listeners[event] || []).filter((f) => f !== cb);] *)
Definition unsubscribe (event : string) (cb : Callback) (ls : Listeners) : Result Listeners :=
  match get ls event with
  | Arr a => Ok (set ls event (filter (notCb cb) a))
  | Absent => Ok (set ls event [])
  | NonArray => Throw (TypeError "(listeners[event] || []).filter is not a function")
  end.

(** [off(event, cb)] *)
Definition off (event : string) (cb : Callback) (ls : Listeners) : Result Listeners :=
  match get ls event with
  | Absent => Ok ls
  | Arr a => Ok (set ls event (filter (notCb cb) a))
  | NonArray => Throw (TypeError "listeners[event].filter is not a function")
  end.

(** [emit(event, payload)].  What a listener does to the rest of the
    program (state [H]) and whether it throws is a parameter; listeners
    do not subscribe or unsubscribe while being called. *)
Section Emit.

Variables Payload H : Type.
Variable call : Callback -> Payload -> H -> Result unit * H.

(** [.forEach((cb) => { try { cb(payload); } catch (err) { console.warn(...) } })]:
    a throwing listener keeps what it did before throwing. *)
Fixpoint emitLoop (cbs : list Callback) (payload : Payload) (h : H) : H :=
  match cbs with
  | [] => h
  | cb :: rest =>
      let (_, h') := call cb payload h in
      emitLoop rest payload h'
  end.

(** [(listeners[event] || []).forEach(...)] *)
Definition emit (ls : Listeners) (event : string) (payload : Payload) (h : H)
  : Result unit * H :=
  match get ls event with
  | Arr a => (Ok tt, emitLoop a payload h)
  | Absent => (Ok tt, h)
  | NonArray => (Throw (TypeError "(listeners[event] || []).forEach is not a function"), h)
  end.

End Emit.

End Bus.

(* ------------------------------------------------------------------ *)
(** ** The storage operations (src/src/utils/eventBus.js, storage part) *)
(* ------------------------------------------------------------------ *)

Module Store.

Import History.

(** The text stored under [SEARCH_KEY].  The store only ever writes
    [JSON.stringify] of a list of entries, which [JSON.parse] reads back
    as the same list (integers, strings, booleans; absent fields stay
    absent); any other text is taken as one that does not parse. *)
Inductive Raw :=
| RawList (l : list HistoryEntry)
| RawUnparsable.

(** [getItem(SEARCH_KEY)] ([null] is [None]) and the number of
    [emit('searchHistoryChanged')] calls so far.  AsyncStorage and the
    in-memory fallback behave alike; each operation runs to completion
    before the next one starts. *)
Record StoreState := mkStore {
  stored : option Raw;
  notifications : nat
}.

(** [let list = []; if (prevRaw) { try { list = JSON.parse(prevRaw); }
     catch (e) { list = []; } }] *)
Definition readList (raw : option Raw) : list HistoryEntry :=
  match raw with
  | Some (RawList l) => l
  | _ => []
  end.

(** [setItem(SEARCH_KEY, JSON.stringify(l))] *)
Definition setItem (l : list HistoryEntry) (s : StoreState) : StoreState :=
  mkStore (Some (RawList l)) (notifications s).

(** [removeItem(SEARCH_KEY)] *)
Definition removeItem (s : StoreState) : StoreState :=
  mkStore None (notifications s).

(** [try { emit('searchHistoryChanged'); } catch (e) {}] *)
Definition notify (s : StoreState) : StoreState :=
  mkStore (stored s) (S (notifications s)).

(** [loadSearchHistory()]: [if (!raw) return []; return JSON.parse(raw);],
    with a parse error caught and answered by [[]]. *)
Definition loadSearchHistory (s : StoreState) : list HistoryEntry :=
  readList (stored s).

(** [saveSearchEntry(entry)] on the store. *)
Definition saveSearchEntryS (now : Z) (entry : HistoryEntry) (s : StoreState) : StoreState :=
  notify (setItem (saveSearchEntry now (readList (stored s)) entry) s).

(** [clearSearchHistory()] *)
Definition clearSearchHistory (s : StoreState) : StoreState :=
  notify (removeItem s).

(** The argument of [removeSearchEntry] and [toggleFavorite]: a function
    of the entry, or an object with optional [timestamp], [placeId],
    [latitude] and [longitude]. *)
Inductive Matcher :=
| MatchFn (f : HistoryEntry -> bool)
| MatchObj (ts : option Z) (pid : option string) (lat lng : option Z).

(** Whether [matcher] selects [entry].  For an object this is
    [matcher.timestamp && entry.timestamp === matcher.timestamp], or
    [matcher.placeId && entry.placeId && entry.placeId === matcher.placeId],
    or both coordinates given and equal; [removeSearchEntry] keeps the
    entries where this is false, [toggleFavorite] flips those where it is
    true (its [else if] chain is the same disjunction). *)
Definition matches (m : Matcher) (e : HistoryEntry) : bool :=
  match m with
  | MatchFn f => f e
  | MatchObj ts pid lat lng =>
      match ts with
      | Some t => negb (Z.eqb t 0) &&
                  match timestamp e with Some t' => Z.eqb t' t | None => false end
      | None => false
      end
      || (Js.truthy_str pid && Js.truthy_str (placeId e) && Js.str_eqb (placeId e) pid)
      || match lat, lng with
         | Some a, Some b => Z.eqb (latitude e) a && Z.eqb (longitude e) b
         | _, _ => false
         end
  end.

(** [removeSearchEntry(matcher)] *)
Definition removeSearchEntry (m : Matcher) (s : StoreState) : StoreState :=
  notify (setItem (filter (fun e => negb (matches m e)) (readList (stored s))) s).

(** [{ ...entry, favorite: !entry.favorite }] *)
Definition toggleEntry (e : HistoryEntry) : HistoryEntry :=
  {| placeId := placeId e;
     name := name e;
     address := address e;
     latitude := latitude e;
     longitude := longitude e;
     favorite := Some (negb (isFavorite e));
     timestamp := timestamp e |}.

(** [list.map(...)] together with the [changed] flag it sets. *)
Fixpoint toggleMap (m : Matcher) (l : list HistoryEntry) : list HistoryEntry * bool :=
  match l with
  | [] => ([], false)
  | e :: rest =>
      let (rest', changed) := toggleMap m rest in
      if matches m e then (toggleEntry e :: rest', true)
      else (e :: rest', changed)
  end.

(** [toggleFavorite(matcher)]: writes and notifies only if [changed]. *)
Definition toggleFavorite (m : Matcher) (s : StoreState) : StoreState :=
  let (newList, changed) := toggleMap m (readList (stored s)) in
  if changed then notify (setItem newList s) else s.

(** [loadFavorites()]: [(list || []).filter((e) => e.favorite)] *)
Definition loadFavorites (s : StoreState) : list HistoryEntry :=
  filter isFavorite (loadSearchHistory s).

End Store.

(* ------------------------------------------------------------------ *)
(** ** More map helpers (src/src/utils/mapHelpers.js)                  *)
(* ------------------------------------------------------------------ *)

Module MapHelpers.

Import Geo.
Local Open Scope Q_scope.

(** [Math.min] and [Math.max] on numbers. *)
Definition jsMin (a b : Q) : Q := if Qle_bool a b then a else b.
Definition jsMax (a b : Q) : Q := if Qle_bool a b then b else a.

Record Region := mkRegion {
  regionLatitude : Q;
  regionLongitude : Q;
  latitudeDelta : Q;
  longitudeDelta : Q
}.

(** The [coordinates.forEach] loop, on [(minLat, maxLat, minLng, maxLng)]. *)
Fixpoint boundsLoop (coords : list Coordinate) (minLat maxLat minLng maxLng : Q)
  : Q * Q * Q * Q :=
  match coords with
  | [] => (minLat, maxLat, minLng, maxLng)
  | c :: rest =>
      boundsLoop rest (jsMin minLat (latitude c)) (jsMax maxLat (latitude c))
                      (jsMin minLng (longitude c)) (jsMax maxLng (longitude c))
  end.

(** [getRegionForCoordinates(coordinates)], with [null] for a missing or
    empty array.  Rational arithmetic: the double rounding of [* 1.5] and
    [/ 2] is far below the 50% padding, which is what the properties
    below rely on. *)
Definition getRegionForCoordinates (coordinates : option (list Coordinate)) : option Region :=
  match coordinates with
  | Some ((c0 :: _) as coords) =>
      let '(minLat, maxLat, minLng, maxLng) :=
        boundsLoop coords (latitude c0) (latitude c0) (longitude c0) (longitude c0) in
      let latitudeDelta := (maxLat - minLat) * (3 # 2) in
      let longitudeDelta := (maxLng - minLng) * (3 # 2) in
      Some {| regionLatitude := (minLat + maxLat) / 2;
              regionLongitude := (minLng + maxLng) / 2;
              latitudeDelta := jsMax latitudeDelta (2 # 100);
              longitudeDelta := jsMax longitudeDelta (2 # 100) |}
  | _ => None
  end.

(** [remainingDistanceAlongRoute], over a distance function whose values
    are only compared and added (as in [hasDeviatedFromRoute]). *)
Section Remaining.

Variable Coord : Type.
Variable calculateDistance : Coord -> Coord -> Q.

(** [for (let i = 0; i < routeCoordinates.length; i++) { const d = ...;
     if (d < minDist) { minDist = d; minIdx = i; } }], with [None] for
    [minDist = Infinity]. *)
Fixpoint nearestLoop (current : Coord) (coords : list Coord) (i minIdx : nat)
  (minDist : option Q) : nat * option Q :=
  match coords with
  | [] => (minIdx, minDist)
  | c :: rest =>
      let d := calculateDistance current c in
      if match minDist with None => true | Some m => qltb d m end
      then nearestLoop current rest (S i) i (Some d)
      else nearestLoop current rest (S i) minIdx minDist
  end.

(** [for (let i = minIdx; i < routeCoordinates.length - 1; i++)
       remaining += calculateDistance(routeCoordinates[i], routeCoordinates[i + 1]);],
    on the coordinates from index [i] on. *)
Fixpoint segmentLoop (fromI : list Coord) (remaining : Q) : Q :=
  match fromI with
  | a :: ((b :: _) as rest) => segmentLoop rest (remaining + calculateDistance a b)
  | _ => remaining
  end.

Definition remainingDistanceAlongRoute (currentLocation : option Coord)
  (routeCoordinates : option (list Coord)) : option Q :=
  match currentLocation, routeCoordinates with
  | Some current, Some ((_ :: _) as route) =>
      let (minIdx, minDist) := nearestLoop current route 0 0 None in
      match minDist with
      | Some m => Some (segmentLoop (skipn minIdx route) m)
      | None => None (* unreachable: the route is not empty *)
      end
  | _, _ => None
  end.

End Remaining.

(** [Math.PI]: the double [0x400921FB54442D18]. *)
Definition PI : Q := 7074237752028440 # 2 ^ 51.

(** [calculateDistance(coord1, coord2)].  ECMAScript leaves the results
    of [Math.sin], [Math.cos], [Math.sqrt] and [Math.atan2] to the
    implementation (apart from a few exact cases), so they are
    parameters; [Math.sqrt] of a negative number is [NaN] ([None]), which
    the rest of the expression propagates.  Every [+], [-], [*] and [/]
    is rounded to a double.  The sign of a zero is not kept: [+0] and
    [-0] are equal under [==] and [===], and the formula only feeds them
    to [Math.sin] (odd at zero), products and sums. *)
Section Haversine.

Variables sin cos sqrt : Q -> Q.
Variable atan2 : Q -> Q -> Q.

(** [const toRad = (value) => (value * Math.PI) / 180;] *)
Definition toRad (value : Q) : Q := round64 (round64 (value * PI) / 180).

Definition sqrtJS (x : Q) : option Q := if qltb x 0 then None else Some (sqrt x).

Definition calculateDistance (coord1 coord2 : Coordinate) : option Q :=
  let R := 6371 in
  let dLat := toRad (round64 (latitude coord2 - latitude coord1)) in
  let dLon := toRad (round64 (longitude coord2 - longitude coord1)) in
  let a := round64 (round64 (sin (round64 (dLat / 2)) * sin (round64 (dLat / 2)))
             + round64 (round64 (round64 (cos (toRad (latitude coord1))
                                          * cos (toRad (latitude coord2)))
                                 * sin (round64 (dLon / 2)))
                        * sin (round64 (dLon / 2)))) in
  match sqrtJS a, sqrtJS (round64 (1 - a)) with
  | Some sa, Some s1a => Some (round64 (R * round64 (2 * atan2 sa s1a)))
  | _, _ => None
  end.

End Haversine.

End MapHelpers.

(* ================================================================== *)
(** * Properties                                                       *)
(* ================================================================== *)

(* ------------------------------------------------------------------ *)
(** ** The search-history store                                        *)
(* ------------------------------------------------------------------ *)

Module HistoryFacts.

Import History.
Local Open Scope nat_scope.

(** [lia] after splitting every [Nat.max] of the goal. *)
Ltac max_lia :=
  repeat match goal with
         | |- context [Nat.max ?a ?b] =>
             destruct (Nat.max_spec a b) as [[? ->]|[? ->]]
         end; lia.

(** Case on every [Nat.ltb] test of the goal. *)
Ltac case_ltb :=
  repeat match goal with
         | |- context [Nat.ltb ?a ?b] => destruct (Nat.ltb_spec a b)
         end.

Lemma filter_idem {A} (f : A -> bool) (l : list A) :
  filter f (filter f l) = filter f l.
Proof.
  induction l as [|x l IH]; simpl; [reflexivity|].
  destruct (f x) eqn:Hf; simpl; [rewrite Hf, IH|]; auto.
Qed.

Lemma splice1_middle {A} (a b : list A) (e : A) :
  splice1 (length a) (a ++ e :: b) = a ++ b.
Proof.
  unfold splice1. induction a as [|x a IH]; simpl; [reflexivity|].
  f_equal. exact IH.
Qed.

Lemma nth_error_middle {A} (a b : list A) (e : A) :
  nth_error (a ++ e :: b) (length a) = Some e.
Proof. induction a as [|x a IH]; simpl; auto. Qed.

(** Running the loop over the first [length a] positions of [a ++ b]
    keeps a prefix of [a] and only the favorites of the rest of [a]. *)
Lemma evictLoop_split (a b : list HistoryEntry) :
  exists a1 a2, a = a1 ++ a2 /\
    evictLoop (length a) (a ++ b) = a1 ++ filter isFavorite a2 ++ b.
Proof.
  revert b. induction a as [|e a IH] using rev_ind; intros b.
  - exists [], []. auto.
  - replace (length (a ++ [e])) with (S (length a)) by (rewrite length_app; simpl; lia).
    replace ((a ++ [e]) ++ b) with (a ++ e :: b) by (rewrite <- app_assoc; reflexivity).
    cbn [evictLoop]. rewrite nth_error_middle.
    destruct (Nat.ltb STORAGE_CAP (length (a ++ e :: b))).
    + destruct (isFavorite e) eqn:Hf; simpl negb; cbv iota.
      * destruct (IH (e :: b)) as (a1 & a2 & -> & Heq). rewrite Heq.
        exists a1, (a2 ++ [e]). rewrite filter_app. simpl. rewrite Hf.
        split; [now rewrite app_assoc|]. rewrite <- !app_assoc. reflexivity.
      * rewrite splice1_middle.
        destruct (IH b) as (a1 & a2 & -> & Heq). rewrite Heq.
        exists a1, (a2 ++ [e]). rewrite filter_app. simpl. rewrite Hf.
        split; [now rewrite app_assoc|]. now rewrite app_nil_r.
    + exists (a ++ [e]), []. split; [now rewrite app_nil_r | simpl; rewrite <- app_assoc; reflexivity].
Qed.

(** The loop stops as soon as the list is at the cap, or when it has
    removed every non-favorite among the positions it scans. *)
Lemma evictLoop_length (a b : list HistoryEntry) :
  length (evictLoop (length a) (a ++ b)) =
  if Nat.ltb STORAGE_CAP (length a + length b)
  then Nat.max STORAGE_CAP (length (filter isFavorite a) + length b)
  else length a + length b.
Proof.
  revert b. induction a as [|e a IH] using rev_ind; intros b.
  - cbn [evictLoop app filter length]. case_ltb; max_lia.
  - replace (length (a ++ [e])) with (S (length a)) by (rewrite length_app; simpl; lia).
    replace ((a ++ [e]) ++ b) with (a ++ e :: b) by (rewrite <- app_assoc; reflexivity).
    cbn [evictLoop]. rewrite nth_error_middle, filter_app, length_app.
    pose proof (filter_length_le isFavorite a) as Hle.
    rewrite length_app. simpl length.
    destruct (Nat.ltb_spec STORAGE_CAP (length a + S (length b))) as [Hlt|Hge].
    + destruct (isFavorite e) eqn:Hf; cbn [negb].
      * rewrite IH. cbn [length]. case_ltb; max_lia.
      * rewrite splice1_middle, IH. cbn [length]. case_ltb; max_lia.
    + rewrite length_app. cbn [length]. case_ltb; max_lia.
Qed.

Lemma evict_shape (l : list HistoryEntry) :
  (exists kept older, l = kept ++ older /\ evict l = kept ++ filter isFavorite older)
  /\ length (evict l) =
     (if Nat.ltb STORAGE_CAP (length l)
      then Nat.max STORAGE_CAP (length (filter isFavorite l)) else length l).
Proof.
  unfold evict. destruct (Nat.ltb STORAGE_CAP (length l)) eqn:Hc.
  - pose proof (evictLoop_split l []) as (a1 & a2 & Hl & Heq).
    pose proof (evictLoop_length l []) as Hlen.
    rewrite app_nil_r in Heq, Hlen. rewrite Nat.add_0_r, Hc, Nat.add_0_r in Hlen.
    split; [exists a1, a2; rewrite app_nil_r in Heq; auto | exact Hlen].
  - split; [exists l, []; simpl; rewrite app_nil_r; auto | reflexivity].
Qed.

Lemma evict_favorites (l : list HistoryEntry) :
  filter isFavorite (evict l) = filter isFavorite l.
Proof.
  destruct (proj1 (evict_shape l)) as (kept & older & -> & ->).
  now rewrite !filter_app, filter_idem.
Qed.

Lemma filter_comm {A} (f g : A -> bool) (l : list A) :
  filter f (filter g l) = filter g (filter f l).
Proof.
  induction l as [|x l IH]; simpl; [reflexivity|].
  destruct (g x) eqn:Hg, (f x) eqn:Hf; simpl; rewrite ?Hg, ?Hf, IH; reflexivity.
Qed.

Lemma sameKey_newEntry now prev entry :
  sameKey entry (newEntry now prev entry) = true.
Proof.
  unfold sameKey, newEntry; simpl.
  destruct (Js.truthy_str (placeId entry)) eqn:Hp; simpl.
  - destruct (placeId entry) as [p|]; simpl; [apply String.eqb_refl | discriminate].
  - now rewrite !Z.eqb_refl.
Qed.

Lemma filtered_no_key prev entry :
  filter (sameKey entry) (filtered prev entry) = [].
Proof.
  unfold filtered. induction prev as [|x l IH]; simpl; [reflexivity|].
  destruct (sameKey entry x) eqn:Hx; simpl; [exact IH|]. rewrite Hx. exact IH.
Qed.

(** When the saved entry survives eviction (it is a favorite, or the
    list is within the cap), it heads the stored list and is the only
    entry of its key. *)
Lemma save_fresh_entry_front now prev entry :
  isFavorite (newEntry now prev entry) = true \/
  length (upserted now prev entry) <= STORAGE_CAP ->
  hd_error (saveSearchEntry now prev entry) = Some (newEntry now prev entry) /\
  filter (sameKey entry) (saveSearchEntry now prev entry) = [newEntry now prev entry].
Proof.
  intros Hcase. unfold saveSearchEntry.
  pose proof (filtered_no_key prev entry) as Hnone.
  pose proof (sameKey_newEntry now prev entry) as Hself.
  destruct Hcase as [Hfav|Hlen].
  - destruct (proj1 (evict_shape (upserted now prev entry))) as (kept & older & Hup & ->).
    unfold upserted in Hup. destruct kept as [|x kept]; simpl in Hup.
    + subst older. simpl. rewrite Hfav. simpl. rewrite Hself.
      split; [reflexivity|]. rewrite filter_comm, Hnone. reflexivity.
    + injection Hup as <- Hrest. simpl. rewrite Hself. split; [reflexivity|].
      rewrite filter_app, filter_comm.
      rewrite Hrest, filter_app in Hnone. apply app_eq_nil in Hnone as [-> ->].
      reflexivity.
  - unfold evict. destruct (Nat.ltb_spec STORAGE_CAP (length (upserted now prev entry))); [lia|].
    unfold upserted. simpl. rewrite Hself, Hnone. split; reflexivity.
Qed.

(** C1 (counterexample): an explicit [favorite: false] in the saved
    entry does not clear the favorite of the stored match. *)
Lemma save_explicit_false_keeps_favorite :
  saveSearchEntry 10
    [mkEntry (Some "place-1"%string) "Cafe"%string "Main St"%string 1 2 (Some true) (Some 5%Z)]
    (mkEntry (Some "place-1"%string) "Cafe"%string "Main St"%string 1 2 (Some false) None)
  = [mkEntry (Some "place-1"%string) "Cafe"%string "Main St"%string 1 2 (Some true) (Some 10%Z)]
  /\ ~ (exists e,
          In e (saveSearchEntry 10
                  [mkEntry (Some "place-1"%string) "Cafe"%string "Main St"%string 1 2 (Some true) (Some 5%Z)]
                  (mkEntry (Some "place-1"%string) "Cafe"%string "Main St"%string 1 2 (Some false) None))
          /\ favorite e = Some false).
Proof.
  split; [reflexivity|].
  intros (e & Hin & Hf). vm_compute in Hin.
  destruct Hin as [<-|[]]. discriminate Hf.
Qed.

(** C1 (as amended): when the stored list has an entry with the key of
    the saved one, the new entry is a favorite iff that (first) match is
    a favorite or the caller's entry sets [favorite] to a truthy value;
    a favorited match therefore stays a favorite, at the front of the
    stored list, whatever the caller passes. *)
Theorem save_favorite_merges_existing now prev entry ex :
  existing prev entry = Some ex ->
  favorite (newEntry now prev entry)
    = Some (isFavorite ex || Js.truthy_bool (favorite entry))
  /\ (isFavorite ex = true ->
      hd_error (saveSearchEntry now prev entry) = Some (newEntry now prev entry)
      /\ favorite (newEntry now prev entry) = Some true).
Proof.
  intros Hex.
  assert (Hf : favorite (newEntry now prev entry)
               = Some (isFavorite ex || Js.truthy_bool (favorite entry)))
    by (unfold newEntry; rewrite Hex; reflexivity).
  split; [exact Hf|]. intros Hfav.
  rewrite Hfav in Hf. split; [|exact Hf].
  apply save_fresh_entry_front. left. unfold isFavorite. rewrite Hf. reflexivity.
Qed.

Lemma save_favorite_merges_existing_witness :
  existing [mkEntry (Some "place-1"%string) "Cafe"%string "Main St"%string 1 2 (Some true) (Some 5%Z)]
           (mkEntry (Some "place-1"%string) "Cafe"%string "Main St"%string 1 2 (Some false) None)
  = Some (mkEntry (Some "place-1"%string) "Cafe"%string "Main St"%string 1 2 (Some true) (Some 5%Z))
  /\ favorite (newEntry 10
        [mkEntry (Some "place-1"%string) "Cafe"%string "Main St"%string 1 2 (Some true) (Some 5%Z)]
        (mkEntry (Some "place-1"%string) "Cafe"%string "Main St"%string 1 2 (Some false) None))
     = Some (true || false).
Proof.
  split; [reflexivity|].
  apply (proj1 (save_favorite_merges_existing 10
    [mkEntry (Some "place-1"%string) "Cafe"%string "Main St"%string 1 2 (Some true) (Some 5%Z)]
    (mkEntry (Some "place-1"%string) "Cafe"%string "Main St"%string 1 2 (Some false) None)
    (mkEntry (Some "place-1"%string) "Cafe"%string "Main St"%string 1 2 (Some true) (Some 5%Z)) eq_refl)).
Defined.

(** C2: after the upsert, eviction keeps a prefix of the list and the
    favorites of the rest (it removes non-favorites from the tail only),
    never removes a favorite, and stops at the cap, or above it when only
    favorites are left to scan. *)
Theorem saveSearchEntry_evicts_tail_non_favorites now prev entry :
  let up := upserted now prev entry in
  let r := saveSearchEntry now prev entry in
  (exists kept older, up = kept ++ older /\ r = kept ++ filter isFavorite older)
  /\ filter isFavorite r = filter isFavorite up
  /\ length r = (if Nat.ltb STORAGE_CAP (length up)
                 then Nat.max STORAGE_CAP (length (filter isFavorite up))
                 else length up)
  /\ (length r <= STORAGE_CAP \/ forallb isFavorite r = true).
Proof.
  intros up r. unfold r, saveSearchEntry. fold up.
  destruct (evict_shape up) as [Hshape Hlen].
  pose proof (evict_favorites up) as Hfav.
  split; [exact Hshape|]. split; [exact Hfav|]. split; [exact Hlen|].
  destruct (Nat.le_gt_cases (length (evict up)) STORAGE_CAP) as [Hle|Hgt]; [now left|right].
  apply filter_length_forallb. rewrite Hfav.
  rewrite Hlen in Hgt |- *. case_ltb; [|lia].
  destruct (Nat.max_spec STORAGE_CAP (length (filter isFavorite up))) as [[_ Hm]|[_ Hm]];
    rewrite Hm in Hgt |- *; lia.
Qed.

(** C3 (code bug): with 50 favorites stored, saving a new non-favorite
    place evicts the entry just saved: the stored list then has no entry
    for its key. *)
Lemma save_at_cap_evicts_saved_entry :
  let prev := map (fun k => mkEntry None EmptyString EmptyString (Z.of_nat k) 0 (Some true) (Some (Z.of_nat k)))
                  (seq 1 50) in
  let entry := mkEntry None "Home"%string EmptyString 0 1 None None in
  length prev = 50 /\ forallb isFavorite prev = true
  /\ saveSearchEntry 200 prev entry = prev
  /\ filter (sameKey entry) (saveSearchEntry 200 prev entry) = [].
Proof. vm_compute. repeat split. Qed.

End HistoryFacts.

(* ------------------------------------------------------------------ *)
(** ** Geometry helpers                                                *)
(* ------------------------------------------------------------------ *)

Module GeoFacts.

Import Geo.
Local Open Scope Q_scope.

Lemma qltb_iff a b : qltb a b = true <-> a < b.
Proof.
  unfold qltb. rewrite negb_true_iff. split; intros H.
  - apply Qnot_le_lt. intros Hle. apply Qle_bool_iff in Hle. congruence.
  - destruct (Qle_bool b a) eqn:Hb; [|reflexivity].
    apply Qle_bool_iff in Hb. exfalso. apply (Qlt_not_le a b); assumption.
Qed.

Section Deviation.

Variable Coord : Type.
Variable calculateDistance : Coord -> Coord -> Q.

Local Abbreviation minLoop := (minDistanceLoop Coord calculateDistance).
Local Abbreviation deviated := (hasDeviatedFromRoute Coord calculateDistance).

(** Starting from a finite [minDistance], the loop ends with the least
    of it and the distances to the points scanned. *)
Lemma minDistanceLoop_min current coords m0 :
  exists m, minLoop current coords (Some m0) = Some m
    /\ (m = m0 \/ exists q, In q coords /\ m = calculateDistance current q)
    /\ m <= m0
    /\ (forall q, In q coords -> m <= calculateDistance current q).
Proof.
  revert m0. induction coords as [|c rest IH]; intros m0; simpl.
  - exists m0. repeat split; auto using Qle_refl. intros q [].
  - set (d := calculateDistance current c).
    destruct (qltb d m0) eqn:Hlt.
    + apply qltb_iff in Hlt.
      destruct (IH d) as (m & Hm & Hsrc & Hle & Hall).
      exists m. split; [exact Hm|]. split.
      { right. destruct Hsrc as [->|(q & Hq & ->)]; [exists c; auto|exists q; auto]. }
      split; [apply Qle_trans with d; [exact Hle|apply Qlt_le_weak; exact Hlt]|].
      intros q [<-|Hq]; [exact Hle|auto].
    + destruct (IH m0) as (m & Hm & Hsrc & Hle & Hall).
      exists m. split; [exact Hm|]. split.
      { destruct Hsrc as [->|(q & Hq & ->)]; [left; reflexivity|right; exists q; auto]. }
      split; [exact Hle|].
      intros q [<-|Hq]; [|auto].
      apply Qle_trans with m0; [exact Hle|].
      apply Qnot_lt_le. intros H. apply qltb_iff in H. unfold d in Hlt. congruence.
Qed.


End Deviation.

(** C5: the empty string decodes to no point, and Google's reference
    string decodes to the running sums 3850000/-12020000,
    4070000/-12095000, 4325200/-12645300, that is to the points
    (38.5, -120.2), (40.7, -120.95), (43.252, -126.453) once divided
    by 1e5. *)
Theorem decodePolyline_reference :
  decodePolyline EmptyString = []
  /\ decodeLoop 27 (codeUnits "_p~iF~ps|U_ulLnnqC_mqNvxq`@"%string) 0 0
     = [(3850000, -12020000); (4070000, -12095000); (4325200, -12645300)]%Z
  /\ Forall2 (fun c p => latitude c == fst p /\ longitude c == snd p)
       (decodePolyline "_p~iF~ps|U_ulLnnqC_mqNvxq`@"%string)
       [(38.5, -120.2); (40.7, -120.95); (43.252, -126.453)].
Proof.
  split; [reflexivity|]. split; [vm_compute; reflexivity|].
  vm_compute. repeat constructor.
Qed.

(** C10: at 119.5 minutes the hours are floored to 1 while the
    remainder 59.5 rounds up to 60, which is not carried. *)
Theorem formatDuration_sixty_minutes :
  60 <= 119.5 /\ formatDuration 119.5 = "1h 60m"%string.
Proof. split; [vm_compute; discriminate|vm_compute; reflexivity]. Qed.

End GeoFacts.

(* ------------------------------------------------------------------ *)
(** ** The location context                                            *)
(* ------------------------------------------------------------------ *)

Module ContextFacts.

Import Exc Context.

(** C9: [updateDestination(null)] and [updateDestination(undefined)]
    throw a [TypeError] at [dest.name] before any update, so they leave
    the state (and its destination) as it was; on an object it never
    throws, sets the destination and resets the route.  Among all the
    operations of the context, only [clearDestination] turns a set
    destination back to [null]. *)
Theorem updateDestination_requires_object :
  (forall s, exists msg, updateDestination ArgNull s = (Throw (TypeError msg), s))
  /\ (forall s, exists msg, updateDestination ArgUndefined s = (Throw (TypeError msg), s))
  /\ (forall d s,
        updateDestination (ArgObject d) s =
        (Ok tt, mkLocState (currentLocation s) (Some d) None [] true (isJourneyActive s)))
  /\ (forall s, destination (snd (clearDestination s)) = None)
  /\ (forall op s,
        op <> OpClearDestination -> destination s <> None ->
        destination (snd (runOp op s)) <> None).
Proof.
  split; [intros s; eexists; reflexivity|].
  split; [intros s; eexists; reflexivity|].
  split; [intros d s; reflexivity|].
  split; [intros s; reflexivity|].
  intros op s Hop Hd.
  destruct op as [l|[| |d]| |i c|b| | |u]; simpl; try exact Hd; try discriminate.
  contradiction Hop. reflexivity.
Qed.

End ContextFacts.

(* ------------------------------------------------------------------ *)
(** ** The routing fetch                                               *)
(* ------------------------------------------------------------------ *)

Module RoutingFacts.

Import Exc Routing.

(** The fetch failed: rejected, not JSON, or a status other than "OK"
    or no route. *)
Definition failedOutcome (o : FetchOutcome) : Prop :=
  o = FetchRejected \/ o = JsonRejected \/
  exists data, o = Responded data /\ (status data <> "OK"%string \/ routes data = []).

(** C7: once a failed fetch settles, [fetchRoute] completes normally, the
    context keeps its route info and route coordinates (and everything
    else), and only [isLoadingRoute] is set to false; the component's
    in-flight flag is released. *)
Theorem fetchRoute_failure_only_clears_loading o w :
  failedOutcome o ->
  fetchRouteResume o w =
  (Ok tt, mkWorld (Context.setIsLoadingRoute false (ctx w)) false
                  (lastFetchKeyRef w) (fetchCalls w)).
Proof.
  intros [->|[->|(data & -> & Hfail)]]; [reflexivity|reflexivity|].
  unfold fetchRouteResume, tryCatchFinally, fetchRouteBody.
  destruct (String.eqb_spec (status data) "OK"%string) as [Hok|Hok];
    [destruct Hfail as [Hfail|Hfail]; [contradiction|rewrite Hfail]|]; reflexivity.
Qed.

Lemma fetchRoute_failure_only_clears_loading_witness :
  failedOutcome FetchRejected /\
  fetchRouteResume FetchRejected (freshWorld Context.initialState) =
  (Ok tt, mkWorld (Context.setIsLoadingRoute false Context.initialState) false None []).
Proof.
  split; [left; reflexivity|].
  exact (fetchRoute_failure_only_clears_loading FetchRejected
           (freshWorld Context.initialState) (or_introl eq_refl)).
Defined.

(** C8 (counterexample): fetch A, then B, then A again, each settling in
    between: the request for A is sent twice. *)
Lemma routeEffect_refetches_after_other_key :
  let o := Geo.mkCoord 0 0 in
  let a := Geo.mkCoord 1 1 in
  let b := Geo.mkCoord 2 2 in
  let w := runEvents
             [RunEffect (Some o) (Some a) "key"%string; Settle FetchRejected;
              RunEffect (Some o) (Some b) "key"%string; Settle FetchRejected;
              RunEffect (Some o) (Some a) "key"%string]
             (freshWorld Context.initialState) in
  fetchCalls w = [requestUrl o a "key"%string; requestUrl o b "key"%string;
                  requestUrl o a "key"%string]
  /\ count_occ String.string_dec (fetchCalls w) (requestUrl o a "key"%string) = 2%nat.
Proof. vm_compute. split; reflexivity. Qed.

(** Settling a fetch keeps the key of the last fetch started and the
    requests sent. *)
Lemma fetchRouteResume_keeps_key out w :
  lastFetchKeyRef (snd (fetchRouteResume out w)) = lastFetchKeyRef w
  /\ fetchCalls (snd (fetchRouteResume out w)) = fetchCalls w.
Proof.
  unfold fetchRouteResume, tryCatchFinally.
  destruct (fetchRouteBody out w) as [r w1] eqn:Hb.
  assert (Hrefs : lastFetchKeyRef w1 = lastFetchKeyRef w /\ fetchCalls w1 = fetchCalls w).
  { destruct out as [| |data]; simpl in Hb; try (injection Hb as _ <-; auto).
    destruct (String.eqb (status data) "OK"%string && Nat.ltb 0 (length (routes data)));
      [|injection Hb as _ <-; auto].
    destruct (routes data) as [|route rs]; [injection Hb as _ <-; auto|].
    destruct (legs route) as [|leg ls]; [injection Hb as _ <-; auto|].
    unfold liftCtx in Hb.
    destruct (Context.updateRoute _ _ (ctx w)) as [r' c'].
    injection Hb as _ <-. auto. }
  destruct Hrefs as [H1 H2]. simpl. auto.
Qed.

(** One event, when the last fetch started was for the key [kk]: either
    the key and the requests stay, or the event is an effect that sends
    a request for another key and makes it the last one. *)
Lemma runEvent_last_key ev w kk :
  lastFetchKeyRef w = Some kk ->
  (lastFetchKeyRef (runEvent ev w) = Some kk /\ fetchCalls (runEvent ev w) = fetchCalls w)
  \/ exists o' d' k',
       ev = RunEffect (Some o') (Some d') k'
       /\ fetchKey o' d' <> kk
       /\ lastFetchKeyRef (runEvent ev w) = Some (fetchKey o' d')
       /\ fetchCalls (runEvent ev w) = fetchCalls w ++ [requestUrl o' d' k'].
Proof.
  intros Hl.
  destruct ev as [[o'|] [d'|] k'|out]; simpl; try (left; split; [exact Hl|reflexivity]).
  - unfold routeEffect. destruct (String.eqb k' EmptyString);
      [left; split; [exact Hl|reflexivity]|].
    cbn [bind get ret]. destruct (isFetchingRef w); [left; split; [exact Hl|reflexivity]|].
    rewrite Hl. destruct (String.eqb_spec kk (fetchKey o' d')) as [_|Hne];
      [left; split; [exact Hl|reflexivity]|].
    right. exists o', d', k'. split; [reflexivity|]. split; [congruence|].
    split; reflexivity.
  - left. rewrite (proj1 (fetchRouteResume_keeps_key out w)),
                  (proj2 (fetchRouteResume_keeps_key out w)).
    split; [exact Hl|reflexivity].
Qed.

(** C8 (as amended): once a fetch for the routing key of [o] and [d] has
    been started, the effect with [o] and [d] sends no request and
    changes nothing, while that fetch is in flight and after it settled;
    over any run of events whose effects all have that same key (with
    settlements in between), no request is sent; and the last key only
    changes by an effect that sends a request for a different key. *)
Theorem routeEffect_dedup o d w :
  lastFetchKeyRef w = Some (fetchKey o d) ->
  (forall k, routeEffect (Some o) (Some d) k w = (Ok tt, w))
  /\ (forall evs,
        (forall o' d' k', In (RunEffect (Some o') (Some d') k') evs ->
                          fetchKey o' d' = fetchKey o d) ->
        fetchCalls (runEvents evs w) = fetchCalls w
        /\ lastFetchKeyRef (runEvents evs w) = Some (fetchKey o d))
  /\ (forall ev,
        (lastFetchKeyRef (runEvent ev w) = lastFetchKeyRef w
         /\ fetchCalls (runEvent ev w) = fetchCalls w)
        \/ exists o' d' k',
             ev = RunEffect (Some o') (Some d') k'
             /\ fetchKey o' d' <> fetchKey o d
             /\ lastFetchKeyRef (runEvent ev w) = Some (fetchKey o' d')
             /\ fetchCalls (runEvent ev w) = fetchCalls w ++ [requestUrl o' d' k']).
Proof.
  intros Hl. split; [|split].
  - intros k. unfold routeEffect. destruct (String.eqb k EmptyString); [reflexivity|].
    cbn [bind get ret]. destruct (isFetchingRef w); [reflexivity|].
    rewrite Hl, String.eqb_refl. reflexivity.
  - intros evs. revert w Hl. induction evs as [|ev evs IH]; intros w Hl Hsame;
      [split; [reflexivity|exact Hl]|].
    simpl. destruct (runEvent_last_key ev w (fetchKey o d) Hl)
      as [[H1 H2]|(o' & d' & k' & -> & Hne & _)].
    + rewrite <- H2. apply IH; [exact H1|].
      intros o' d' k' Hin. apply (Hsame o' d' k'). right. exact Hin.
    + exfalso. apply Hne, (Hsame o' d' k'). left. reflexivity.
  - intros ev. rewrite Hl. apply runEvent_last_key. exact Hl.
Qed.

Lemma routeEffect_dedup_witness :
  lastFetchKeyRef (mkWorld Context.initialState false
                     (Some (fetchKey (Geo.mkCoord 0 0) (Geo.mkCoord 1 1)))
                     [requestUrl (Geo.mkCoord 0 0) (Geo.mkCoord 1 1) "key"%string])
  = Some (fetchKey (Geo.mkCoord 0 0) (Geo.mkCoord 1 1)) /\
  routeEffect (Some (Geo.mkCoord 0 0)) (Some (Geo.mkCoord 1 1)) "key"%string
    (mkWorld Context.initialState false
       (Some (fetchKey (Geo.mkCoord 0 0) (Geo.mkCoord 1 1)))
       [requestUrl (Geo.mkCoord 0 0) (Geo.mkCoord 1 1) "key"%string])
  = (Ok tt, mkWorld Context.initialState false
              (Some (fetchKey (Geo.mkCoord 0 0) (Geo.mkCoord 1 1)))
              [requestUrl (Geo.mkCoord 0 0) (Geo.mkCoord 1 1) "key"%string]).
Proof.
  split; [reflexivity|].
  apply (routeEffect_dedup (Geo.mkCoord 0 0) (Geo.mkCoord 1 1)
           (mkWorld Context.initialState false
              (Some (fetchKey (Geo.mkCoord 0 0) (Geo.mkCoord 1 1)))
              [requestUrl (Geo.mkCoord 0 0) (Geo.mkCoord 1 1) "key"%string])
           eq_refl).
Defined.

End RoutingFacts.

(* ------------------------------------------------------------------ *)
(** ** The event bus                                                   *)
(* ------------------------------------------------------------------ *)

Module BusFacts.

Import Exc Bus.

(** The array read by [listeners[event] || []] when it is one. *)
Definition getArr (ls : Listeners) (e : string) : list Callback :=
  match get ls e with
  | Arr a => a
  | _ => []
  end.

Lemma get_set_same ls e v : get (set ls e v) e = Arr v.
Proof. unfold get, set. simpl. rewrite String.eqb_refl. reflexivity. Qed.

Lemma find_filter_other (ls : Listeners) e e' :
  e' <> e ->
  find (fun kv => String.eqb (fst kv) e') (filter (fun kv => negb (String.eqb (fst kv) e)) ls)
  = find (fun kv => String.eqb (fst kv) e') ls.
Proof.
  intros Hne. induction ls as [|[k a] ls IH]; simpl; [reflexivity|].
  destruct (String.eqb_spec k e) as [->|Hk]; simpl.
  - destruct (String.eqb_spec e e') as [->|_]; [contradiction|exact IH].
  - destruct (String.eqb k e'); [reflexivity|exact IH].
Qed.

Lemma get_set_other ls e e' v : e' <> e -> get (set ls e v) e' = get ls e'.
Proof.
  intros Hne. unfold get, set. simpl.
  destruct (String.eqb_spec e e') as [->|_]; [contradiction|].
  rewrite find_filter_other by exact Hne. reflexivity.
Qed.

Lemma get_not_inherited ls e :
  ~ In e objectPrototypeNames -> get ls e <> NonArray.
Proof.
  intros Hn. unfold get.
  destruct (find _ ls) as [[k a]|]; [discriminate|].
  destruct (existsb (String.eqb e) objectPrototypeNames) eqn:Hx; [|discriminate].
  apply existsb_exists in Hx. destruct Hx as (x & Hin & Hex).
  apply String.eqb_eq in Hex. subst x. contradiction.
Qed.

(** The three outcomes of [on]. *)
Lemma on_spec ls e cb :
  match get ls e with
  | NonArray => on e cb ls = Throw (TypeError "listeners[event].push is not a function")
  | Arr a => on e cb ls = Ok (set ls e (a ++ [cb]))
  | Absent => on e cb ls = Ok (set (set ls e []) e [cb])
  end.
Proof.
  unfold on. destruct (get ls e) eqn:G.
  - rewrite get_set_same. reflexivity.
  - rewrite G. reflexivity.
  - rewrite G. reflexivity.
Qed.

Lemma on_ok ls e cb ls1 :
  on e cb ls = Ok ls1 ->
  get ls1 e = Arr (getArr ls e ++ [cb]) /\
  (forall e', e' <> e -> get ls1 e' = get ls e').
Proof.
  intros Hon. pose proof (on_spec ls e cb) as S. unfold getArr.
  destruct (get ls e) eqn:G; rewrite Hon in S; try discriminate S;
    injection S as S; subst ls1.
  - split; [apply get_set_same|]. intros e' Hne.
    rewrite !get_set_other by exact Hne. reflexivity.
  - split; [apply get_set_same|]. intros e' Hne.
    rewrite get_set_other by exact Hne. reflexivity.
Qed.

Lemma emit_get {P H} (call : Callback -> P -> H -> Result unit * H) ls ls' e p h :
  get ls' e = get ls e -> emit P H call ls' e p h = emit P H call ls e p h.
Proof. intros G. unfold emit. rewrite G. reflexivity. Qed.

Lemma emitLoop_app {P H} (call : Callback -> P -> H -> Result unit * H) a b p h :
  emitLoop P H call (a ++ b) p h = emitLoop P H call b p (emitLoop P H call a p h).
Proof.
  revert h. induction a as [|cb a IH]; intros h; simpl; [reflexivity|].
  destruct (call cb p h). apply IH.
Qed.

(** [on(event, cb)] throws a [TypeError] when [listeners[event]] is a
    property inherited from [Object.prototype] (an event such as
    ["toString"] or ["__proto__"]), which cannot happen for any other
    name.  Otherwise it appends [cb] to the listeners of [event], after
    the ones already there (registering the same function twice lists it
    twice), and leaves every other event's listeners as they were. *)
Theorem on_appends_listener ls e cb :
  (~ In e objectPrototypeNames -> get ls e <> NonArray)
  /\ (get ls e = NonArray -> exists msg, on e cb ls = Throw (TypeError msg))
  /\ (get ls e <> NonArray ->
        exists ls1, on e cb ls = Ok ls1
          /\ get ls1 e = Arr (getArr ls e ++ [cb])
          /\ (forall e', e' <> e -> get ls1 e' = get ls e')).
Proof.
  split; [apply get_not_inherited|]. split.
  - intros G. pose proof (on_spec ls e cb) as S. rewrite G in S. eexists. exact S.
  - intros G. destruct (on e cb ls) as [ls1|err] eqn:Hon.
    + exists ls1. split; [reflexivity|]. apply on_ok. exact Hon.
    + pose proof (on_spec ls e cb) as S.
      destruct (get ls e); rewrite Hon in S; discriminate || contradiction.
Qed.

(** After [on(event, cb)] has returned, calling the function it returned,
    or [off(event, cb)], removes every registration of [cb] for [event]
    (also those made by earlier calls of [on]) and keeps the other
    listeners in their order; a successful [off] or unsubscription leaves
    the other events alone; [off] on an event that never had listeners
    changes nothing; on a name inherited from [Object.prototype] both
    throw a [TypeError]. *)
Theorem unsubscribe_removes_all_copies ls e cb :
  (forall ls1, on e cb ls = Ok ls1 ->
     (exists ls2, unsubscribe e cb ls1 = Ok ls2
                  /\ get ls2 e = Arr (filter (notCb cb) (getArr ls e)))
     /\ (exists ls2, off e cb ls1 = Ok ls2
                     /\ get ls2 e = Arr (filter (notCb cb) (getArr ls e))))
  /\ (forall l f, In f (filter (notCb cb) l) <-> In f l /\ f <> cb)
  /\ (forall ls2 e', e' <> e ->
        (unsubscribe e cb ls = Ok ls2 -> get ls2 e' = get ls e')
        /\ (off e cb ls = Ok ls2 -> get ls2 e' = get ls e'))
  /\ (get ls e = Absent -> off e cb ls = Ok ls)
  /\ (get ls e = NonArray ->
        (exists msg, off e cb ls = Throw (TypeError msg))
        /\ (exists msg, unsubscribe e cb ls = Throw (TypeError msg))).
Proof.
  split; [|split; [|split; [|split]]].
  - intros ls1 Hon. destruct (on_ok ls e cb ls1 Hon) as [G _].
    assert (Hf : filter (notCb cb) (getArr ls e ++ [cb]) = filter (notCb cb) (getArr ls e)).
    { rewrite filter_app. simpl. unfold notCb at 2. rewrite Nat.eqb_refl. simpl.
      apply app_nil_r. }
    unfold unsubscribe, off. rewrite G, Hf.
    split; eexists; (split; [reflexivity|apply get_set_same]).
  - intros l f. rewrite filter_In. unfold notCb. rewrite negb_true_iff, Nat.eqb_neq.
    reflexivity.
  - intros ls2 e' Hne. unfold unsubscribe, off.
    split; destruct (get ls e); intros Hr; try discriminate Hr;
      try (injection Hr as <-); try reflexivity; apply get_set_other; exact Hne.
  - intros G. unfold off. rewrite G. reflexivity.
  - intros G. unfold off, unsubscribe. rewrite G. split; eexists; reflexivity.
Qed.

(** [emit(event, payload)] after [on(event, cb)] has returned calls the
    listeners that were there before, in registration order, and then
    [cb], even when an earlier listener throws (its effects up to the
    throw are kept), and returns normally; an emit of another event does
    not call [cb].  On a name inherited from [Object.prototype], [emit]
    throws a [TypeError] before calling anything. *)
Theorem emit_runs_new_listener_last {P H} (call : Callback -> P -> H -> Result unit * H)
  ls e cb p h :
  (forall ls1, on e cb ls = Ok ls1 ->
     emit P H call ls1 e p h = (Ok tt, snd (call cb p (snd (emit P H call ls e p h))))
     /\ (forall e', e' <> e -> emit P H call ls1 e' p h = emit P H call ls e' p h))
  /\ (get ls e = NonArray -> exists msg, emit P H call ls e p h = (Throw (TypeError msg), h)).
Proof.
  split.
  - intros ls1 Hon. destruct (on_ok ls e cb ls1 Hon) as [G Go].
    split; [|intros e' Hne; apply emit_get, Go, Hne].
    pose proof (on_spec ls e cb) as S. unfold getArr in G.
    unfold emit at 1. rewrite G, emitLoop_app. simpl.
    unfold emit. destruct (get ls e); rewrite Hon in S; try discriminate S; simpl;
      destruct (call cb p _); reflexivity.
  - intros G. unfold emit. rewrite G. eexists. reflexivity.
Qed.

End BusFacts.

(* ------------------------------------------------------------------ *)
(** ** The storage operations                                          *)
(* ------------------------------------------------------------------ *)

Module StoreFacts.

Import History Store.

Lemma toggleMap_spec m l :
  toggleMap m l = (map (fun e => if matches m e then toggleEntry e else e) l,
                   existsb (matches m) l).
Proof.
  induction l as [|e l IH]; simpl; [reflexivity|]. rewrite IH.
  destruct (matches m e); reflexivity.
Qed.

Lemma toggleFavorite_spec m s :
  toggleFavorite m s =
  if existsb (matches m) (readList (stored s))
  then notify (setItem (map (fun e => if matches m e then toggleEntry e else e)
                              (readList (stored s))) s)
  else s.
Proof. unfold toggleFavorite. rewrite toggleMap_spec. reflexivity. Qed.

Lemma matches_obj_toggleEntry ts pid lat lng e :
  matches (MatchObj ts pid lat lng) (toggleEntry e) = matches (MatchObj ts pid lat lng) e.
Proof. destruct e; reflexivity. Qed.

Lemma toggleEntry_twice e b : favorite e = Some b -> toggleEntry (toggleEntry e) = e.
Proof.
  destruct e as [p n a la lo f t]; simpl. intros ->.
  unfold toggleEntry, isFavorite, Js.truthy_bool. simpl. destruct b; reflexivity.
Qed.

(** After [clearSearchHistory()], [loadSearchHistory()] and
    [loadFavorites()] return [[]], as they do when the stored text does
    not parse; saving an entry into the cleared store leaves exactly that
    entry, stamped with the time and with [favorite] its own flag
    ([false] when absent).  Each of the two writes notifies once. *)
Theorem clear_then_save_single_entry s now entry :
  loadSearchHistory (clearSearchHistory s) = [] /\
  loadFavorites (clearSearchHistory s) = [] /\
  loadSearchHistory (mkStore (Some RawUnparsable) (notifications s)) = [] /\
  loadSearchHistory (saveSearchEntryS now entry (clearSearchHistory s)) =
    [{| placeId := placeId entry; name := name entry; address := address entry;
        latitude := latitude entry; longitude := longitude entry;
        favorite := Some (isFavorite entry); timestamp := Some now |}] /\
  notifications (saveSearchEntryS now entry (clearSearchHistory s)) = S (S (notifications s)).
Proof. repeat split; reflexivity. Qed.

(** Saving an entry with [favorite: true] always keeps it: afterwards it
    heads both the stored list and [loadFavorites()], and the stored list
    holds no other entry with its key. *)
Theorem save_favorite_heads_favorites now entry s :
  favorite entry = Some true ->
  hd_error (loadFavorites (saveSearchEntryS now entry s)) =
    Some (newEntry now (loadSearchHistory s) entry) /\
  hd_error (loadSearchHistory (saveSearchEntryS now entry s)) =
    Some (newEntry now (loadSearchHistory s) entry) /\
  isFavorite (newEntry now (loadSearchHistory s) entry) = true /\
  filter (sameKey entry) (loadSearchHistory (saveSearchEntryS now entry s)) =
    [newEntry now (loadSearchHistory s) entry].
Proof.
  intros Hf.
  assert (Hfav : isFavorite (newEntry now (loadSearchHistory s) entry) = true).
  { unfold isFavorite, newEntry. simpl. rewrite Hf, orb_true_r. reflexivity. }
  destruct (HistoryFacts.save_fresh_entry_front now (loadSearchHistory s) entry (or_introl Hfav))
    as [Hhd Hkey].
  split; [|split; [exact Hhd|split; [exact Hfav|exact Hkey]]].
  unfold loadFavorites, loadSearchHistory, saveSearchEntryS, notify, setItem in *. simpl.
  destruct (saveSearchEntry now (readList (stored s)) entry) as [|x l]; [discriminate|].
  injection Hhd as ->. simpl. rewrite Hfav. reflexivity.
Qed.

Lemma save_favorite_heads_favorites_witness :
  favorite (mkEntry (Some "p1"%string) "Cafe"%string "Main St"%string 1 2 (Some true) None)
    = Some true /\
  hd_error (loadFavorites
    (saveSearchEntryS 7 (mkEntry (Some "p1"%string) "Cafe"%string "Main St"%string 1 2 (Some true) None)
       (mkStore None 0)))
  = Some (newEntry 7 [] (mkEntry (Some "p1"%string) "Cafe"%string "Main St"%string 1 2 (Some true) None)).
Proof.
  split; [reflexivity|].
  exact (proj1 (save_favorite_heads_favorites 7
    (mkEntry (Some "p1"%string) "Cafe"%string "Main St"%string 1 2 (Some true) None)
    (mkStore None 0) eq_refl)).
Defined.

(** [removeSearchEntry(matcher)] leaves no entry the matcher selects,
    keeps every other entry in its order, notifies once, and removing
    with the same matcher again changes the list no further. *)
Theorem remove_drops_exactly_matches m s :
  let l' := loadSearchHistory (removeSearchEntry m s) in
  (forall e, In e l' <-> In e (loadSearchHistory s) /\ matches m e = false) /\
  l' = filter (fun e => negb (matches m e)) (loadSearchHistory s) /\
  loadSearchHistory (removeSearchEntry m (removeSearchEntry m s)) = l' /\
  notifications (removeSearchEntry m s) = S (notifications s).
Proof.
  unfold removeSearchEntry, loadSearchHistory, notify, setItem. simpl.
  split; [|split; [reflexivity|split; [|reflexivity]]].
  - intros e. rewrite filter_In, negb_true_iff. reflexivity.
  - apply HistoryFacts.filter_idem.
Qed.

(** [toggleFavorite(matcher)] flips [favorite] on exactly the selected
    entries and keeps the list's length and order; when no entry is
    selected (also on an empty or unreadable store) it writes nothing and
    notifies nobody. *)
Theorem toggle_flips_selected m s :
  (existsb (matches m) (loadSearchHistory s) = false -> toggleFavorite m s = s) /\
  (existsb (matches m) (loadSearchHistory s) = true ->
     loadSearchHistory (toggleFavorite m s) =
       map (fun e => if matches m e then toggleEntry e else e) (loadSearchHistory s) /\
     notifications (toggleFavorite m s) = S (notifications s)) /\
  length (loadSearchHistory (toggleFavorite m s)) = length (loadSearchHistory s).
Proof.
  unfold toggleFavorite, loadSearchHistory. rewrite toggleMap_spec.
  destruct (existsb (matches m) (readList (stored s))) eqn:He.
  - split; [discriminate|]. split; [intros _; split; reflexivity|].
    simpl. apply length_map.
  - split; [reflexivity|]. split; [discriminate|reflexivity].
Qed.

(** Toggling with the same object matcher twice gives back the stored
    list, when every selected entry has a [favorite] field (entries
    written by [saveSearchEntry] always have one); the store notifies
    twice if something was selected and never otherwise. *)
Theorem toggle_twice_restores ts pid lat lng s :
  (forall e, In e (loadSearchHistory s) ->
     matches (MatchObj ts pid lat lng) e = true -> favorite e <> None) ->
  loadSearchHistory (toggleFavorite (MatchObj ts pid lat lng)
                       (toggleFavorite (MatchObj ts pid lat lng) s)) = loadSearchHistory s /\
  notifications (toggleFavorite (MatchObj ts pid lat lng)
                   (toggleFavorite (MatchObj ts pid lat lng) s)) =
    (if existsb (matches (MatchObj ts pid lat lng)) (loadSearchHistory s)
     then S (S (notifications s)) else notifications s).
Proof.
  intros Hall. set (m := MatchObj ts pid lat lng) in *.
  assert (Ht : forall e, matches m (toggleEntry e) = matches m e)
    by (intros e; apply matches_obj_toggleEntry).
  assert (Hmap : map (fun e => if matches m e then toggleEntry e else e)
                   (map (fun e => if matches m e then toggleEntry e else e) (loadSearchHistory s))
                 = loadSearchHistory s).
  { rewrite map_map. rewrite <- map_id. apply map_ext_in. intros e Hin.
    destruct (matches m e) eqn:Hm.
    - rewrite Ht, Hm.
      destruct (favorite e) as [b|] eqn:Hfe; [|exfalso; exact (Hall e Hin Hm Hfe)].
      apply (toggleEntry_twice e b Hfe).
    - rewrite Hm. reflexivity. }
  assert (Hex : existsb (matches m)
                  (map (fun e => if matches m e then toggleEntry e else e) (loadSearchHistory s))
                = existsb (matches m) (loadSearchHistory s)).
  { clear Hall Hmap. induction (loadSearchHistory s) as [|e l IH]; cbn [existsb map];
      [reflexivity|].
    destruct (matches m e) eqn:Hm.
    - rewrite Ht, Hm. reflexivity.
    - rewrite Hm. cbn [orb]. exact IH. }
  unfold loadSearchHistory in *. rewrite (toggleFavorite_spec m s).
  destruct (existsb (matches m) (readList (stored s))) eqn:He.
  - rewrite toggleFavorite_spec. cbn [stored notify setItem readList notifications].
    rewrite Hex, Hmap. split; reflexivity.
  - rewrite toggleFavorite_spec, He. split; reflexivity.
Qed.

Lemma toggle_twice_restores_witness :
  let s := mkStore (Some (RawList
             [mkEntry (Some "p1"%string) "Cafe"%string "Main St"%string 1 2 (Some true) (Some 5%Z)])) 0 in
  let m := MatchObj None (Some "p1"%string) None None in
  (forall e, In e (loadSearchHistory s) -> matches m e = true -> favorite e <> None) /\
  loadSearchHistory (toggleFavorite m (toggleFavorite m s)) = loadSearchHistory s.
Proof.
  intros s m.
  assert (H : forall e, In e (loadSearchHistory s) -> matches m e = true -> favorite e <> None).
  { intros e [<-|[]] _. discriminate. }
  split; [exact H|].
  exact (proj1 (toggle_twice_restores None (Some "p1"%string) None None s H)).
Defined.

End StoreFacts.

(* ------------------------------------------------------------------ *)
(** ** More map helpers                                                *)
(* ------------------------------------------------------------------ *)

Module MapHelpersFacts.

Import Geo MapHelpers.
Local Open Scope Q_scope.

(** Rounding to a double. *)

Lemma round64_Qeq x y : x == y -> round64 x = round64 y.
Proof. intros H. unfold round64. rewrite (Qred_complete x y H). reflexivity. Qed.

Lemma Qopp_opp_eq (q : Q) : - - q = q.
Proof. destruct q as [n d]. unfold Qopp. simpl. rewrite Z.opp_involutive. reflexivity. Qed.

Lemma round64_opp x : round64 (- x) = - round64 x.
Proof.
  unfold round64. rewrite Qred_opp.
  destruct (Qred x) as [[|n|n] d]; cbn [Qopp Qnum Qden Z.opp].
  - reflexivity.
  - rewrite Qred_opp. reflexivity.
  - rewrite Qred_opp, Qopp_opp_eq. reflexivity.
Qed.

Lemma round64_zero x : x == 0 -> round64 x = 0.
Proof. intros H. rewrite (round64_Qeq x 0 H). reflexivity. Qed.

Lemma toRad_opp v : toRad (- v) = - toRad v.
Proof.
  unfold toRad.
  rewrite (round64_Qeq (- v * PI) (- (v * PI))) by ring.
  rewrite round64_opp.
  rewrite (round64_Qeq (- round64 (v * PI) / 180) (- (round64 (v * PI) / 180)))
    by (unfold Qdiv; ring).
  apply round64_opp.
Qed.

Lemma toRad_zero v : v == 0 -> toRad v = 0.
Proof.
  intros H. unfold toRad. rewrite (round64_zero (v * PI)) by (rewrite H; ring).
  apply round64_zero. reflexivity.
Qed.

Lemma roundHalfEven_spec q :
  inject_Z (roundHalfEven q) - (1 # 2) <= q /\ q <= inject_Z (roundHalfEven q) + (1 # 2).
Proof.
  unfold roundHalfEven.
  pose proof (Qfloor_le q) as H1. pose proof (Qlt_floor q) as H2.
  set (f := Qfloor q) in *.
  rewrite inject_Z_plus in H2. change (inject_Z 1) with (1 # 1) in H2.
  destruct (Qcompare_spec (q - inject_Z f) (1 # 2)) as [H|H|H].
  - destruct (Z.even f); [|rewrite inject_Z_plus; change (inject_Z 1) with (1 # 1)];
      split; lra.
  - split; lra.
  - rewrite inject_Z_plus; change (inject_Z 1) with (1 # 1). split; lra.
Qed.

Lemma roundHalfEven_int q z : q == inject_Z z -> roundHalfEven q = z.
Proof.
  intros H. unfold roundHalfEven.
  assert (Hf : Qfloor q = z) by (rewrite H; apply Qfloor_Z).
  rewrite Hf.
  assert (L : q - inject_Z z < 1 # 2) by (rewrite H; lra).
  assert (E : (q - inject_Z z ?= 1 # 2) = Lt) by exact L.
  rewrite E. reflexivity.
Qed.

Lemma binadeExp_le p d :
  (binadeExp (Z.pos p # d) <= Z.log2 (Z.pos p) - Z.log2 (Z.pos d))%Z.
Proof. unfold binadeExp. cbn [Qnum Qden]. destruct (Qle_bool _ _); lia. Qed.

Lemma roundPos_err p d :
  let u := 2 ^ (Z.max (binadeExp (Z.pos p # d)) (-1022) - 52) in
  (Z.pos p # d) - u * (1 # 2) <= roundPos (Z.pos p # d)
  /\ roundPos (Z.pos p # d) <= (Z.pos p # d) + u * (1 # 2).
Proof.
  intros u. unfold roundPos. fold u.
  assert (Hu : 0 < u) by (apply Qpower_0_lt; reflexivity).
  destruct (roundHalfEven_spec ((Z.pos p # d) / u)) as [Hlo Hhi].
  set (m := inject_Z (roundHalfEven ((Z.pos p # d) / u))) in *.
  set (x := Z.pos p # d) in *.
  assert (Ex : x / u * u == x) by (field; intros E; rewrite E in Hu; apply (Qlt_irrefl 0); exact Hu).
  pose proof (Qmult_le_compat_r _ _ u Hlo (Qlt_le_weak _ _ Hu)) as A.
  pose proof (Qmult_le_compat_r _ _ u Hhi (Qlt_le_weak _ _ Hu)) as B.
  rewrite Ex in A, B.
  split; nra.
Qed.

Lemma roundPos_exact p d k j :
  (Z.max (binadeExp (Z.pos p # d)) (-1022) - 52 = - j)%Z -> (0 <= j)%Z ->
  (Z.pos p # d) == inject_Z k -> roundPos (Z.pos p # d) == inject_Z k.
Proof.
  intros Hj Hj0 Hx. unfold roundPos. rewrite Hj.
  assert (H2 : 2 ^ j == inject_Z (2 ^ j)) by (rewrite Zpower_Qpower by exact Hj0; reflexivity).
  assert (Hp : ~ 2 ^ j == 0) by (apply Qpower_not_0; discriminate).
  rewrite (roundHalfEven_int _ (k * 2 ^ j)).
  - rewrite inject_Z_mult, Qpower_opp, <- H2. field. exact Hp.
  - rewrite Hx, Qpower_opp, inject_Z_mult, <- H2. field. exact Hp.
Qed.

Lemma round64_pos_eq x p d :
  Qred x = Z.pos p # d -> round64 x == roundPos (Z.pos p # d).
Proof. intros H. unfold round64. rewrite H. cbn [Qnum Qden]. apply Qred_correct. Qed.

Lemma Qfloor_between q k : inject_Z k <= q -> q < inject_Z k + 1 -> Qfloor q = k.
Proof.
  intros H1 H2.
  pose proof (Qfloor_le q) as A. pose proof (Qlt_floor q) as B.
  rewrite inject_Z_plus in B. change (inject_Z 1) with (1 # 1) in B.
  assert (C : (Qfloor q < k + 1)%Z).
  { rewrite Zlt_Qlt, inject_Z_plus. change (inject_Z 1) with (1 # 1). lra. }
  assert (D : (k < Qfloor q + 1)%Z).
  { rewrite Zlt_Qlt, inject_Z_plus. change (inject_Z 1) with (1 # 1). lra. }
  lia.
Qed.

Lemma round64_minutes_floor n :
  (0 < n < 2 ^ 45)%Z -> Qfloor (round64 (inject_Z n / 60)) = (n / 60)%Z.
Proof.
  intros Hn.
  set (x := inject_Z n / 60).
  assert (Ex : x == inject_Z n * (1 # 60)) by reflexivity.
  pose proof (Qred_correct x) as HR.
  destruct (Qred x) as [P D] eqn:HQ.
  assert (Heq : (P * 60 = n * Z.pos D)%Z).
  { unfold Qeq in HR. cbn [Qnum Qden] in HR. unfold x in HR. simpl in HR. lia. }
  destruct P as [|p|p]; [lia| |lia].
  pose proof (round64_pos_eq x p D HQ) as Hr.
  pose proof (roundPos_err p D) as Herr. cbv zeta in Herr.
  set (E := (Z.max (binadeExp (Z.pos p # D)) (-1022) - 52)%Z) in *.
  assert (HE : (E <= -7)%Z).
  { pose proof (binadeExp_le p D) as B.
    assert (L1 : (Z.log2 (Z.pos p) <= Z.log2 (n * Z.pos D))%Z)
      by (apply Z.log2_le_mono; nia).
    assert (L2 : (Z.log2 (n * Z.pos D) <= Z.log2 n + Z.log2 (Z.pos D) + 1)%Z)
      by (apply Z.log2_mul_above; lia).
    assert (L3 : (Z.log2 n < 45)%Z) by (apply Z.log2_lt_pow2; lia).
    unfold E. lia. }
  assert (Hu : 2 ^ E <= 1 # 128).
  { change (1 # 128) with (2 ^ (-7)). apply Qpower_le_compat_l; [exact HE|discriminate]. }
  assert (Hu0 : 0 < 2 ^ E) by (apply Qpower_0_lt; reflexivity).
  assert (Hn60 : n = (60 * (n / 60) + n mod 60)%Z) by (apply Z.div_mod; discriminate).
  assert (Hx : x == inject_Z (n / 60) + inject_Z (n mod 60) * (1 # 60)).
  { rewrite Ex. rewrite Hn60 at 1. rewrite inject_Z_plus, inject_Z_mult.
    change (inject_Z 60) with (60 # 1). ring. }
  set (k := (n / 60)%Z) in *. set (r := (n mod 60)%Z) in *.
  apply Qfloor_between.
  - destruct (Z.eq_dec r 0) as [R0|R0].
    + assert (Hxk : (Z.pos p # D) == inject_Z k).
      { rewrite HR, Hx, R0. change (inject_Z 0) with 0. ring. }
      pose proof (roundPos_exact p D k (- E) ltac:(unfold E; lia) ltac:(lia) Hxk) as X.
      rewrite Hr, X. apply Qle_refl.
    + assert (R1 : inject_Z 1 <= inject_Z r) by (rewrite <- Zle_Qle; pose proof (Z.mod_pos_bound n 60); unfold r in *; lia).
      change (inject_Z 1) with (1 # 1) in R1.
      destruct Herr as [Hlo _]. rewrite Hr. set (y := Z.pos p # D) in *. lra.
  - assert (R59 : inject_Z r <= inject_Z 59)
      by (rewrite <- Zle_Qle; unfold r; pose proof (Z.mod_pos_bound n 60); lia).
    change (inject_Z 59) with (59 # 1) in R59.
    assert (R0 : inject_Z 0 <= inject_Z r)
      by (rewrite <- Zle_Qle; unfold r; pose proof (Z.mod_pos_bound n 60); lia).
    change (inject_Z 0) with (0 # 1) in R0.
    destruct Herr as [_ Hhi]. rewrite Hr. set (y := Z.pos p # D) in *. lra.
Qed.


Lemma jsMin_le a b : jsMin a b <= a /\ jsMin a b <= b.
Proof.
  unfold jsMin. destruct (Qle_bool a b) eqn:H.
  - apply Qle_bool_iff in H. split; [apply Qle_refl|exact H].
  - split; [|apply Qle_refl]. apply Qlt_le_weak, Qnot_le_lt.
    intros Hab. apply Qle_bool_iff in Hab. congruence.
Qed.

Lemma jsMax_ge a b : a <= jsMax a b /\ b <= jsMax a b.
Proof.
  unfold jsMax. destruct (Qle_bool a b) eqn:H.
  - apply Qle_bool_iff in H. split; [exact H|apply Qle_refl].
  - split; [apply Qle_refl|]. apply Qlt_le_weak, Qnot_le_lt.
    intros Hab. apply Qle_bool_iff in Hab. congruence.
Qed.

Lemma boundsLoop_spec coords a b c d :
  match boundsLoop coords a b c d with
  | (a', b', c', d') =>
      a' <= a /\ b <= b' /\ c' <= c /\ d <= d' /\
      forall x, In x coords ->
        a' <= latitude x <= b' /\ c' <= longitude x <= d'
  end.
Proof.
  revert a b c d. induction coords as [|x rest IH]; intros a b c d; simpl.
  - refine (conj (Qle_refl _) (conj (Qle_refl _) (conj (Qle_refl _) (conj (Qle_refl _) _)))).
    intros _ [].
  - specialize (IH (jsMin a (latitude x)) (jsMax b (latitude x))
                   (jsMin c (longitude x)) (jsMax d (longitude x))).
    destruct (boundsLoop rest _ _ _ _) as [[[a' b'] c'] d'].
    destruct IH as (Ha & Hb & Hc & Hd & Hin).
    destruct (jsMin_le a (latitude x)) as [Ha1 Ha2].
    destruct (jsMax_ge b (latitude x)) as [Hb1 Hb2].
    destruct (jsMin_le c (longitude x)) as [Hc1 Hc2].
    destruct (jsMax_ge d (longitude x)) as [Hd1 Hd2].
    split; [lra|]. split; [lra|]. split; [lra|]. split; [lra|].
    intros y [<-|Hy].
    + split; split; lra.
    + destruct (Hin y Hy) as [[? ?] [? ?]]. split; split; lra.
Qed.



Section Remaining.

Variable Coord : Type.
Variable dist : Coord -> Coord -> Q.

Lemma nth_error_snoc_cases {A} (pre : list A) (c q : A) j :
  nth_error (pre ++ [c]) j = Some q ->
  ((j < length pre)%nat /\ nth_error pre j = Some q) \/ (j = length pre /\ q = c).
Proof.
  intros H. destruct (Nat.lt_ge_cases j (length pre)) as [Hj|Hj].
  - left. rewrite nth_error_app1 in H by exact Hj. split; assumption.
  - right. rewrite nth_error_app2 in H by exact Hj.
    destruct (j - length pre)%nat eqn:E; simpl in H.
    + injection H as ->. split; [lia|reflexivity].
    + destruct n; discriminate.
Qed.

Lemma nearestLoop_inv cur : forall l pre mi md,
  (md = None -> pre = []) ->
  (forall m, md = Some m ->
     exists p, nth_error pre mi = Some p /\ dist cur p = m /\
       (forall j q, nth_error pre j = Some q -> m <= dist cur q) /\
       (forall j q, (j < mi)%nat -> nth_error pre j = Some q -> m < dist cur q)) ->
  match nearestLoop Coord dist cur l (length pre) mi md with
  | (k, Some m) =>
      exists p, nth_error (pre ++ l) k = Some p /\ dist cur p = m /\
        (forall j q, nth_error (pre ++ l) j = Some q -> m <= dist cur q) /\
        (forall j q, (j < k)%nat -> nth_error (pre ++ l) j = Some q -> m < dist cur q)
  | (_, None) => pre ++ l = []
  end.
Proof.
  induction l as [|c rest IH]; intros pre mi md Hnone Hsome.
  - simpl. rewrite app_nil_r. destruct md as [m|]; [apply Hsome; reflexivity|].
    apply Hnone; reflexivity.
  - cbn [nearestLoop].
    replace (pre ++ c :: rest) with ((pre ++ [c]) ++ rest) by (rewrite <- app_assoc; reflexivity).
    replace (S (length pre)) with (length (pre ++ [c])) by (rewrite length_app; simpl; lia).
    destruct (match md with None => true | Some m => qltb (dist cur c) m end) eqn:Hcond.
    + apply IH; [discriminate|]. intros m' Hm'. injection Hm' as <-.
      exists c. split; [rewrite nth_error_app2 by lia; rewrite Nat.sub_diag; reflexivity|].
      split; [reflexivity|].
      assert (Hold : forall j q, (j < length pre)%nat -> nth_error pre j = Some q ->
                       dist cur c < dist cur q).
      { intros j q Hj Hq. destruct md as [m|].
        - destruct (Hsome m eq_refl) as (p & _ & _ & Hall & _).
          apply GeoFacts.qltb_iff in Hcond. specialize (Hall j q Hq). lra.
        - rewrite (Hnone eq_refl) in Hj. simpl in Hj. lia. }
      split.
      * intros j q Hq. apply nth_error_snoc_cases in Hq as [[Hj Hq]|[_ ->]].
        -- apply Qlt_le_weak. exact (Hold j q Hj Hq).
        -- apply Qle_refl.
      * intros j q Hj Hq. apply nth_error_snoc_cases in Hq as [[_ Hq]|[Hj' _]]; [|lia].
        exact (Hold j q Hj Hq).
    + destruct md as [m|]; [|discriminate].
      assert (Hle : m <= dist cur c).
      { apply Qnot_lt_le. intros Hlt. apply GeoFacts.qltb_iff in Hlt. congruence. }
      apply IH; [discriminate|]. intros m' Hm'. injection Hm' as <-.
      destruct (Hsome m eq_refl) as (p & Hp & Hpm & Hall & Hfirst).
      assert (Hmi : (mi < length pre)%nat).
      { apply nth_error_Some. rewrite Hp. discriminate. }
      exists p. split; [rewrite nth_error_app1 by exact Hmi; exact Hp|].
      split; [exact Hpm|]. split.
      * intros j q Hq. apply nth_error_snoc_cases in Hq as [[_ Hq]|[_ ->]];
          [exact (Hall j q Hq)|exact Hle].
      * intros j q Hj Hq. apply nth_error_snoc_cases in Hq as [[_ Hq]|[Hj' _]]; [|lia].
        exact (Hfirst j q Hj Hq).
Qed.



End Remaining.


(** On a whole number of minutes [0 <= n < 2^45] (exact in floating
    point), [formatDuration] shows ["n min"] below an hour and
    ["<n div 60>h <n mod 60>m"] from an hour on: the rounding of
    [n / 60] cannot reach the next integer. *)
Theorem formatDuration_whole_minutes (n : Z) :
  (0 <= n < 2 ^ 45)%Z ->
  formatDuration (inject_Z n) =
    if (n <? 60)%Z then (showZ n ++ " min")%string
    else (showZ (n / 60) ++ "h " ++ showZ (n mod 60) ++ "m")%string.
Proof.
  intros Hn.
  assert (Hround : forall q z, q == inject_Z z -> jsRound q = z).
  { intros q z Hq. unfold jsRound.
    pose proof (Qfloor_le (q + (1 # 2))) as H1.
    pose proof (Qlt_floor (q + (1 # 2))) as H2.
    rewrite inject_Z_plus in H2. change (inject_Z 1) with (1 # 1) in H2.
    assert (Hlo : (Qfloor (q + (1 # 2)) < z + 1)%Z).
    { rewrite Zlt_Qlt, inject_Z_plus. change (inject_Z 1) with (1 # 1). lra. }
    assert (Hhi : (z < Qfloor (q + (1 # 2)) + 1)%Z).
    { rewrite Zlt_Qlt, inject_Z_plus. change (inject_Z 1) with (1 # 1). lra. }
    lia. }
  unfold formatDuration.
  assert (Hlt : negb (Qle_bool 60 (inject_Z n)) = (n <? 60)%Z).
  { unfold Qle_bool, inject_Z. simpl. rewrite !Z.mul_1_r.
    destruct (Z.leb_spec 60 n), (Z.ltb_spec n 60); reflexivity || lia. }
  rewrite Hlt. destruct (Z.ltb_spec n 60) as [H60|H60].
  - rewrite (Hround (inject_Z n) n (Qeq_refl _)). reflexivity.
  - assert (Hdiv : Qfloor (inject_Z n / 60) = (n / 60)%Z)
      by (symmetry; apply (Zdiv_Qdiv n 60)).
    assert (Hhours : Qfloor (round64 (inject_Z n / 60)) = (n / 60)%Z)
      by (apply round64_minutes_floor; lia).
    assert (Hmod : jsMod (inject_Z n) 60 == inject_Z (n mod 60)).
    { unfold jsMod.
      assert (Hk : Qle_bool 0 (inject_Z n / 60) = true).
      { apply Qle_bool_iff. unfold Qle, Qdiv, Qmult, Qinv, inject_Z. simpl. lia. }
      rewrite Hk, Hdiv. rewrite Z.mod_eq by lia.
      unfold Z.sub. rewrite inject_Z_plus, inject_Z_opp, inject_Z_mult.
      unfold Qminus. reflexivity. }
    rewrite Hhours, (Hround _ _ Hmod). reflexivity.
Qed.

Lemma formatDuration_whole_minutes_witness :
  (0 <= 125 < 2 ^ 45)%Z /\
  formatDuration (inject_Z 125) =
    (showZ (125 / 60) ++ "h " ++ showZ (125 mod 60) ++ "m")%string.
Proof.
  assert (H : (0 <= 125 < 2 ^ 45)%Z) by (split; [discriminate|reflexivity]).
  split; [exact H|].
  exact (formatDuration_whole_minutes 125 H).
Defined.

(** The coordinates the specification calls valid. *)
Definition validCoordinate (c : Coordinate) : Prop :=
  -90 <= latitude c <= 90 /\ -180 <= longitude c <= 180.

Lemma calculateDistance_opp_args sin cos sqrt atan2 :
  (forall x, sin (- x) = - sin x) ->
  forall a b, calculateDistance sin cos sqrt atan2 a b = calculateDistance sin cos sqrt atan2 b a.
Proof.
  intros Hodd [lat1 lng1] [lat2 lng2]. unfold calculateDistance; cbn [latitude longitude].
  rewrite (round64_Qeq (lat1 - lat2) (- (lat2 - lat1))) by ring.
  rewrite (round64_Qeq (lng1 - lng2) (- (lng2 - lng1))) by ring.
  rewrite !round64_opp, !toRad_opp.
  set (dLat := toRad (round64 (lat2 - lat1))).
  set (dLon := toRad (round64 (lng2 - lng1))).
  rewrite (round64_Qeq (- dLat / 2) (- (dLat / 2))) by (unfold Qdiv; ring).
  rewrite (round64_Qeq (- dLon / 2) (- (dLon / 2))) by (unfold Qdiv; ring).
  rewrite !round64_opp, !Hodd.
  rewrite (round64_Qeq (- sin (round64 (dLat / 2)) * - sin (round64 (dLat / 2)))
             (sin (round64 (dLat / 2)) * sin (round64 (dLat / 2)))) by ring.
  rewrite (round64_Qeq (cos (toRad lat2) * cos (toRad lat1))
             (cos (toRad lat1) * cos (toRad lat2))) by ring.
  set (c := round64 (cos (toRad lat1) * cos (toRad lat2))).
  set (s := sin (round64 (dLon / 2))).
  rewrite (round64_Qeq (c * - s) (- (c * s))) by ring.
  rewrite round64_opp.
  rewrite (round64_Qeq (- round64 (c * s) * - s) (round64 (c * s) * s)) by ring.
  reflexivity.
Qed.

(** When both differences round to zero, the distance is [+0]. *)
Lemma calculateDistance_zero_diff sin cos sqrt atan2 a b :
  sin 0 = 0 -> sqrt 0 = 0 -> sqrt 1 = 1 -> atan2 0 1 = 0 ->
  toRad (round64 (latitude b - latitude a)) = 0 ->
  toRad (round64 (longitude b - longitude a)) = 0 ->
  calculateDistance sin cos sqrt atan2 a b = Some 0.
Proof.
  intros Hs Hq0 Hq1 Ha Hlat Hlng. unfold calculateDistance.
  rewrite Hlat, Hlng.
  rewrite (round64_zero (0 / 2)) by reflexivity.
  rewrite Hs.
  rewrite (round64_zero (0 * 0)) by reflexivity.
  rewrite (round64_zero (_ * 0)) by ring.
  rewrite (round64_zero (0 + 0)) by reflexivity.
  unfold sqrtJS. change (qltb 0 0) with false. cbv iota.
  change (round64 (1 - 0)) with 1. change (qltb 1 0) with false. cbv iota beta.
  rewrite Hq0, Hq1, Ha.
  rewrite (round64_zero (2 * 0)) by reflexivity.
  rewrite (round64_zero (6371 * 0)) by reflexivity.
  reflexivity.
Qed.

(** C4 (as amended): with the values ECMAScript fixes for [Math.sin(+0)],
    [Math.sqrt(+0)], [Math.sqrt(1)] (correctly rounded) and
    [Math.atan2(+0, 1)], the distance from a valid coordinate to itself is
    exactly [0]; and when [Math.sin] is odd (as in the usual libm;
    ECMAScript does not require it), [calculateDistance(a, b)] and
    [calculateDistance(b, a)] are the same number, or both [NaN]. *)
Theorem calculateDistance_self_and_symmetric sin cos sqrt atan2 :
  sin 0 = 0 -> sqrt 0 = 0 -> sqrt 1 = 1 -> atan2 0 1 = 0 ->
  (forall a, validCoordinate a -> calculateDistance sin cos sqrt atan2 a a = Some 0)
  /\ ((forall x, sin (- x) = - sin x) ->
      forall a b, validCoordinate a -> validCoordinate b ->
        calculateDistance sin cos sqrt atan2 a b = calculateDistance sin cos sqrt atan2 b a).
Proof.
  intros Hs Hq0 Hq1 Ha. split.
  - intros a _. apply calculateDistance_zero_diff; try assumption;
      (apply toRad_zero; rewrite (round64_zero _) by ring; reflexivity).
  - intros Hodd a b _ _. apply calculateDistance_opp_args. exact Hodd.
Qed.

Lemma calculateDistance_self_and_symmetric_witness :
  let sin := fun x : Q => x in
  let cos := fun _ : Q => 1 in
  let sqrt := fun x : Q => x in
  let atan2 := fun y _ : Q => y in
  let a := mkCoord 0 0 in
  let b := mkCoord 1 1 in
  (sin 0 = 0 /\ sqrt 0 = 0 /\ sqrt 1 = 1 /\ atan2 0 1 = 0)
  /\ validCoordinate a /\ validCoordinate b
  /\ calculateDistance sin cos sqrt atan2 a a = Some 0
  /\ calculateDistance sin cos sqrt atan2 a b = calculateDistance sin cos sqrt atan2 b a.
Proof.
  intros sin cos sqrt atan2 a b.
  assert (Va : validCoordinate a) by (unfold validCoordinate; simpl; split; split; discriminate).
  assert (Vb : validCoordinate b) by (unfold validCoordinate; simpl; split; split; discriminate).
  destruct (calculateDistance_self_and_symmetric sin cos sqrt atan2
              eq_refl eq_refl eq_refl eq_refl) as [H1 H2].
  split; [split; [|split; [|split]]; reflexivity|].
  split; [exact Va|]. split; [exact Vb|].
  split; [exact (H1 a Va)|].
  exact (H2 (fun x => eq_refl) a b Va Vb).
Defined.

(** C4 (counterexample): [(0, 0)] and [(5e-324, 0)] are distinct valid
    coordinates, yet [toRad(5e-324)] underflows to [0] and the distance
    between them is exactly [0], whatever [Math.sin], [Math.cos],
    [Math.sqrt] and [Math.atan2] return outside their fixed cases. *)
Lemma calculateDistance_zero_at_distinct_points :
  exists a b : Coordinate,
    validCoordinate a /\ validCoordinate b /\ a <> b /\
    forall sin cos sqrt atan2,
      sin 0 = 0 -> sqrt 0 = 0 -> sqrt 1 = 1 -> atan2 0 1 = 0 ->
      calculateDistance sin cos sqrt atan2 a b = Some 0.
Proof.
  exists (mkCoord 0 0), (mkCoord (1 # 2 ^ 1074) 0).
  split; [unfold validCoordinate; simpl; split; split; discriminate|].
  split; [unfold validCoordinate; simpl; split; split; discriminate|].
  split; [intros H; injection H as H; discriminate H|].
  intros sin cos sqrt atan2 Hs Hq0 Hq1 Ha.
  apply calculateDistance_zero_diff; try assumption; vm_compute; reflexivity.
Qed.

End MapHelpersFacts.

(* ------------------------------------------------------------------ *)
(** ** The location context and the routing fetch, further            *)
(* ------------------------------------------------------------------ *)

Module ContextMoreFacts.

Import Exc Context.

Lemma find_app {A} (f : A -> bool) l1 l2 :
  find f (l1 ++ l2) = match find f l1 with Some x => Some x | None => find f l2 end.
Proof. induction l1 as [|x l1 IH]; simpl; [reflexivity|]. destruct (f x); auto. Qed.

Lemma prop_merge prev updates k :
  prop (merge prev updates) k =
  match prop updates k with Some v => Some v | None => prop prev k end.
Proof.
  unfold prop, merge. rewrite find_app.
  destruct (find (fun kv => String.eqb (fst kv) k) updates) as [kv|] eqn:Hu;
    [reflexivity|].
  f_equal. induction prev as [|[k' v'] prev IH]; simpl; [reflexivity|].
  destruct (existsb (fun u => String.eqb (fst u) k') updates) eqn:He; simpl.
  - destruct (String.eqb_spec k' k) as [->|Hne]; [|exact IH].
    exfalso. apply existsb_exists in He as ([uk uv] & Hin & Heq).
    simpl in Heq. apply String.eqb_eq in Heq as ->.
    apply (find_none _ _ Hu) in Hin. simpl in Hin. rewrite String.eqb_refl in Hin.
    discriminate.
  - destruct (String.eqb k' k); [reflexivity|exact IH].
Qed.

(** [setDestinationMeta(updates)] sets the destination to
    [{ ...prev, ...updates }]: each property is the one in [updates] when
    present there and the old destination's otherwise.  With no
    destination set it creates one from [updates] alone.  Nothing else in
    the context changes. *)
Theorem setDestinationMeta_merges updates s :
  exists d,
    setDestinationMeta updates s = (Ok tt, setDestination (Some d) s) /\
    forall k, prop d k =
      match prop updates k with
      | Some v => Some v
      | None => match destination s with Some prev => prop prev k | None => None end
      end.
Proof.
  unfold setDestinationMeta, modify.
  eexists; split; [reflexivity|]. intros k.
  destruct (destination s) as [prev|]; rewrite prop_merge; [reflexivity|].
  destruct (prop updates k); reflexivity.
Qed.

(** Every operation of the context keeps route information and route
    coordinates paired: if there are coordinates only with route
    information before, so after (only [updateRoute] sets coordinates,
    and it sets the information with them). *)
Theorem runOp_keeps_route_pairing op s :
  (routeInfo s = None -> routeCoordinates s = []) ->
  routeInfo (snd (runOp op s)) = None -> routeCoordinates (snd (runOp op s)) = [].
Proof.
  intros Hs. destruct op as [l|[| |d]| |i c|b| | |u]; simpl; try exact Hs.
  - intros _. reflexivity.
  - intros _. reflexivity.
  - discriminate.
Qed.

Lemma runOp_keeps_route_pairing_witness :
  (routeInfo initialState = None -> routeCoordinates initialState = []) /\
  (routeInfo (snd (runOp OpClearDestination initialState)) = None ->
   routeCoordinates (snd (runOp OpClearDestination initialState)) = []).
Proof.
  assert (H : routeInfo initialState = None -> routeCoordinates initialState = [])
    by (intros _; reflexivity).
  split; [exact H|].
  exact (runOp_keeps_route_pairing OpClearDestination initialState H).
Defined.

End ContextMoreFacts.

Module RoutingMoreFacts.

Import Exc Routing.

Lemma strip_noLt l : ~ In "<"%char l -> stripTagsLoop l None = l.
Proof.
  induction l as [|c l IH]; intros H; simpl; [reflexivity|].
  destruct (Ascii.eqb_spec c "<"%char) as [->|Hc]; [exfalso; apply H; left; reflexivity|].
  rewrite IH; [reflexivity|]. intros Hin. apply H. right. exact Hin.
Qed.

Lemma strip_pending_noGt l : forall buf,
  ~ In ">"%char l -> stripTagsLoop l (Some buf) = rev buf ++ l.
Proof.
  induction l as [|c l IH]; intros buf H; simpl; [rewrite app_nil_r; reflexivity|].
  destruct (Ascii.eqb_spec c ">"%char) as [->|Hc]; [exfalso; apply H; left; reflexivity|].
  rewrite IH; [simpl; rewrite <- app_assoc; reflexivity|].
  intros Hin. apply H. right. exact Hin.
Qed.

Lemma good_tail c o :
  (forall l1 l2, c :: o = l1 ++ "<"%char :: l2 -> ~ In ">"%char l2) ->
  (forall l1 l2, o = l1 ++ "<"%char :: l2 -> ~ In ">"%char l2).
Proof. intros H l1 l2 E. apply (H (c :: l1)). rewrite E. reflexivity. Qed.

Lemma good_cons c o :
  c <> "<"%char ->
  (forall l1 l2, o = l1 ++ "<"%char :: l2 -> ~ In ">"%char l2) ->
  (forall l1 l2, c :: o = l1 ++ "<"%char :: l2 -> ~ In ">"%char l2).
Proof.
  intros Hc H [|x l1] l2 E; simpl in E; injection E as E1 E2; [contradiction|].
  exact (H l1 l2 E2).
Qed.

Lemma good_open l :
  ~ In ">"%char l ->
  (forall l1 l2, "<"%char :: l = l1 ++ "<"%char :: l2 -> ~ In ">"%char l2).
Proof.
  intros H l1 l2 E Hin. apply H.
  assert (Hin' : In ">"%char ("<"%char :: l)) by (rewrite E; apply in_or_app; right; right; exact Hin).
  destruct Hin' as [Heq|Hl]; [discriminate|exact Hl].
Qed.

Lemma strip_shape l :
  (forall l1 l2, stripTagsLoop l None = l1 ++ "<"%char :: l2 -> ~ In ">"%char l2) /\
  (forall buf,
     (~ In ">"%char l /\ stripTagsLoop l (Some buf) = rev buf ++ l) \/
     (forall l1 l2, stripTagsLoop l (Some buf) = l1 ++ "<"%char :: l2 -> ~ In ">"%char l2)).
Proof.
  induction l as [|c l [IHn IHs]].
  - split.
    + intros [|x l1] l2 E; discriminate.
    + intros buf. left. split; [intros []|]. simpl. rewrite app_nil_r. reflexivity.
  - split.
    + simpl. destruct (Ascii.eqb_spec c "<"%char) as [->|Hc].
      * destruct (IHs ["<"%char]) as [[Hno ->]|Hg]; [|exact Hg].
        apply good_open. exact Hno.
      * apply good_cons; [exact Hc|exact IHn].
    + intros buf. simpl. destruct (Ascii.eqb_spec c ">"%char) as [->|Hc].
      * right. exact IHn.
      * destruct (IHs (c :: buf)) as [[Hno ->]|Hg]; [left|right; exact Hg].
        split.
        -- intros [E|Hin]; [apply Hc; exact E|exact (Hno Hin)].
        -- simpl. rewrite <- app_assoc. reflexivity.
Qed.

Lemma strip_good_fixed o :
  (forall l1 l2, o = l1 ++ "<"%char :: l2 -> ~ In ">"%char l2) ->
  stripTagsLoop o None = o.
Proof.
  induction o as [|c o IH]; intros H; simpl; [reflexivity|].
  destruct (Ascii.eqb_spec c "<"%char) as [->|Hc].
  - rewrite strip_pending_noGt; [reflexivity|]. apply (H []). reflexivity.
  - rewrite IH; [reflexivity|]. exact (good_tail c o H).
Qed.

(** The step text shown to the user, [html_instructions] with
    [/<[^>]*>/g] removed, has no [<] followed later by [>]: every tag is
    gone, and what is left of a [<] is an unclosed tail.  Stripping again
    changes nothing, and text without [<] is kept as it is. *)
Theorem stripTags_removes_every_tag s :
  (forall l1 l2, list_ascii_of_string (stripTags s) = l1 ++ "<"%char :: l2 ->
     ~ In ">"%char l2) /\
  stripTags (stripTags s) = stripTags s /\
  (~ In "<"%char (list_ascii_of_string s) -> stripTags s = s).
Proof.
  unfold stripTags. rewrite list_ascii_of_string_of_list_ascii.
  destruct (strip_shape (list_ascii_of_string s)) as [Hg _].
  split; [exact Hg|]. split.
  - rewrite strip_good_fixed by exact Hg. reflexivity.
  - intros H. rewrite strip_noLt by exact H. apply string_of_list_ascii_of_string.
Qed.

(** Once an [OK] response with a route has arrived, [fetchRoute] stores
    together the first leg's distance in kilometres ([value / 1000]), its
    duration in minutes ([value / 60]), its steps in order with tags
    stripped, and the decoded overview polyline as the route
    coordinates, then clears the loading and in-flight flags.  If that
    route has no legs, reading [leg.distance] throws, and only the
    loading flag changes in the context. *)
Theorem fetchRoute_success_sets_route data route rs w :
  status data = "OK"%string ->
  routes data = route :: rs ->
  (forall leg ls, legs route = leg :: ls ->
     fetchRouteResume (Responded data) w =
     (Ok tt,
      mkWorld
        (Context.mkLocState (Context.currentLocation (ctx w)) (Context.destination (ctx w))
           (Some {| Context.distance := leg_distance_value leg / 1000;
                    Context.duration := leg_duration_value leg / 60;
                    Context.steps :=
                      map (fun st =>
                             {| Context.instruction := stripTags (html_instructions st);
                                Context.stepDistance := step_distance_text st;
                                Context.stepDuration := step_duration_text st |})
                          (leg_steps leg) |})
           (Geo.decodePolyline (overview_polyline_points route))
           false (Context.isJourneyActive (ctx w)))
        false (lastFetchKeyRef w) (fetchCalls w))) /\
  (legs route = [] ->
     fetchRouteResume (Responded data) w =
     (Ok tt, mkWorld (Context.setIsLoadingRoute false (ctx w)) false
                     (lastFetchKeyRef w) (fetchCalls w))).
Proof.
  intros Hs Hr. unfold fetchRouteResume, tryCatchFinally, fetchRouteBody.
  rewrite Hs, Hr. simpl. split.
  - intros leg ls Hl. rewrite Hl. reflexivity.
  - intros Hl. rewrite Hl. reflexivity.
Qed.

Lemma fetchRoute_success_sets_route_witness :
  let route := mkRouteJson "_p~iF~ps|U"%string
                 [mkLegJson "1.5 km"%string 1500 "2 mins"%string 120
                    [mkStepJson "<b>Left</b>"%string "1.5 km"%string "2 mins"%string]] in
  let data := mkDirectionsData "OK"%string [route] in
  status data = "OK"%string /\ routes data = [route] /\
  Context.routeInfo (ctx (snd (fetchRouteResume (Responded data)
                                 (freshWorld Context.initialState)))) <> None.
Proof.
  intros route data. split; [reflexivity|]. split; [reflexivity|].
  rewrite (proj1 (fetchRoute_success_sets_route data route []
             (freshWorld Context.initialState) eq_refl eq_refl)
             (mkLegJson "1.5 km"%string 1500 "2 mins"%string 120
                [mkStepJson "<b>Left</b>"%string "1.5 km"%string "2 mins"%string]) [] eq_refl).
  discriminate.
Defined.

(** Whatever the component does over time (effects running, fetches
    settling in any way), the context never holds route coordinates
    without route information, provided it did not at the start. *)
Theorem routing_keeps_route_pairing evs w :
  (Context.routeInfo (ctx w) = None -> Context.routeCoordinates (ctx w) = []) ->
  Context.routeInfo (ctx (runEvents evs w)) = None ->
  Context.routeCoordinates (ctx (runEvents evs w)) = [].
Proof.
  revert w. induction evs as [|ev evs IH]; intros w Hw; simpl; [exact Hw|].
  apply IH. destruct ev as [o d k|out]; simpl.
  - unfold routeEffect. destruct o as [o|], d as [d|]; simpl; try exact Hw.
    destruct (String.eqb k EmptyString); [exact Hw|].
    unfold fetchRouteStart, bind, get, ret, modify, liftCtx. simpl.
    destruct (isFetchingRef w); [exact Hw|].
    destruct (match lastFetchKeyRef w with
              | Some key => String.eqb key (fetchKey o d)
              | None => false end); exact Hw.
  - unfold fetchRouteResume, tryCatchFinally, fetchRouteBody.
    destruct out as [| |data]; simpl; try exact Hw.
    destruct (String.eqb (status data) "OK" && Nat.ltb 0 (length (routes data)));
      simpl; [|exact Hw].
    destruct (routes data) as [|route rs]; simpl; [exact Hw|].
    destruct (legs route) as [|leg ls]; simpl; [exact Hw|].
    discriminate.
Qed.

Lemma routing_keeps_route_pairing_witness :
  let evs := [RunEffect (Some (Geo.mkCoord 0 0)) (Some (Geo.mkCoord 1 1)) "key"%string;
              Settle FetchRejected] in
  let w := freshWorld Context.initialState in
  (Context.routeInfo (ctx w) = None -> Context.routeCoordinates (ctx w) = []) /\
  (Context.routeInfo (ctx (runEvents evs w)) = None ->
   Context.routeCoordinates (ctx (runEvents evs w)) = []).
Proof.
  intros evs w.
  assert (H : Context.routeInfo (ctx w) = None -> Context.routeCoordinates (ctx w) = [])
    by (intros _; reflexivity).
  split; [exact H|].
  exact (routing_keeps_route_pairing evs w H).
Defined.

End RoutingMoreFacts.
